(** * IPVS consistent-hashing scheduler (ip_vs_ch_core.c)

    A shallow embedding of the scheduling module: the per-service table
    [ip_vs_ch_bucket], its construction ([ip_vs_ch_assign]), its teardown
    ([ip_vs_ch_flush]), the service hooks ([ip_vs_ch_init_svc],
    [ip_vs_ch_done_svc], [ip_vs_ch_update_svc]) and the scheduling loop
    ([ip_vs_ch_schedule]).

    Destinations live in kernel memory and are shared with the IPVS core, so
    they are kept in a store indexed by address; the C functions become
    functions on that store.  Reading through an address that the store does
    not map, or through an unset [sched_data], has no defined result: the
    embedding returns [None] there.  The same holds for a read of a member
    of an object that has been handed to [kfree], and for a list operation
    on a [struct list_head] whose links are not those of a list. *)

From Stdlib Require Import ZArith String List Lia Sorted.
From stdpp Require Import base option list gmap strings pretty.
From Stdlib Require Import Ascii.

Local Open Scope Z_scope.

(** ** Machine integers *)

Definition uint32 (x : Z) : Z := x mod 2 ^ 32.
Definition uint16 (x : Z) : Z := x mod 2 ^ 16.
(** [int]: 32 bits, two's complement (the kernel is built with wrapping
    signed arithmetic; [atomic_t] wraps as well). *)
Definition int32 (x : Z) : Z := (x + 2 ^ 31) mod 2 ^ 32 - 2 ^ 31.

(** ** Constants *)

(** [#define REPLICA 160] *)
Definition REPLICA : Z := 160.
(** errno value behind [-ENOMEM]. *)
Definition ENOMEM : Z := 12.
(** Destination flags of <linux/ip_vs.h>. *)
Definition IP_VS_DEST_F_AVAILABLE : Z := 0x0001.
Definition IP_VS_DEST_F_OVERLOAD : Z := 0x0002.

(** ** Data *)

(** [union nf_inet_addr]: sixteen bytes seen as four 32-bit words; the member
    [ip] is the first word, [ip6] all four. *)
Record nf_inet_addr := { word0 : Z; word1 : Z; word2 : Z; word3 : Z }.
Definition ip (a : nf_inet_addr) : Z := word0 a.

(** The fields of [struct ip_vs_dest] the module touches. *)
Record ip_vs_dest := {
  addr : nf_inet_addr;
  port : Z;
  flags : Z;
  weight : Z;
  refcnt : Z
}.

(** Addresses of destinations; [option] adds the NULL pointer. *)
Abbreviation dest_ptr := positive.

(** [struct node_s] of conhash.h, as far as the module uses it: the identity
    string and replica count given to [conhash_set_node], and the [dest]
    member the module stores in it. *)
Record node_s := {
  iden : string;
  replicas : Z;
  dest : option dest_ptr
}.

(** The hash function and the naming of a node's replicas belong to the
    conhash library, whose sources are not at hand, and the byte order
    belongs to the host: the development is parametric in the three. *)
Class Platform := {
  big_endian : bool;
  hashfunc : string → Z;
  replica_iden : string → nat → string
}.

(** *** The ring *)

(** Modelled from the spec: the virtual nodes of the conhash library
    (conhash.h and its implementation are not among the sources).  A virtual
    node carries its identity string, its hash value and its owner. *)
Record vnode := {
  vn_iden : string;
  vn_hash : Z;
  vn_node : node_s
}.

(** Modelled from the spec: [struct conhash_s] of the conhash library, the
    Ring, an ordered sequence of virtual nodes keyed by hash value. *)
Abbreviation conhash_s := (list vnode).

(** Modelled from the spec: the order the conhash library keeps the Ring
    in, by hash value with ties broken by identity string. *)
Definition vnode_ltb (a b : vnode) : bool :=
  (vn_hash a <? vn_hash b)
  || ((vn_hash a =? vn_hash b) && String.ltb (vn_iden a) (vn_iden b)).

(** Modelled from the spec: the insertion behind [conhash_add_node], the
    spec's [insert(virtualNode)], which keeps the sequence sorted; among
    entries equal in hash and identity the earlier insertion stays first. *)
Fixpoint ring_insert (v : vnode) (r : conhash_s) : conhash_s :=
  match r with
  | [] => [v]
  | x :: r' => if vnode_ltb v x then v :: x :: r' else x :: ring_insert v r'
  end.

(** Modelled from the spec: the removal behind [conhash_del_node], the
    spec's [remove(virtualNode)], which removes by identity and does nothing
    when the identity is absent. *)
Fixpoint ring_remove (s : string) (r : conhash_s) : conhash_s :=
  match r with
  | [] => []
  | x :: r' =>
      if String.eqb (vn_iden x) s then ring_remove s r' else x :: ring_remove s r'
  end.

(** Modelled from the spec: the search behind [conhash_lookup], for the
    first entry with hash value >= the query. *)
Fixpoint ring_successor (q : Z) (r : conhash_s) : option vnode :=
  match r with
  | [] => None
  | x :: r' => if q <=? vn_hash x then Some x else ring_successor q r'
  end.

(** Modelled from the spec: the search behind [conhash_lookup], the spec's
    [lookupSuccessor(queryHash)], which returns the first entry with hash
    value >= the query, wrapping to the smallest entry; none only on an
    empty Ring. *)
Definition lookupSuccessor (q : Z) (r : conhash_s) : option vnode :=
  match ring_successor q r with
  | Some x => Some x
  | None => head r
  end.

Section Conhash.
Context {plat : Platform}.

(** Modelled from the spec: the [i]-th virtual node that the conhash
    library makes for a node, named after the node's identity and the
    replica index and placed at the hash of that name. *)
Definition replica (n : node_s) (i : nat) : vnode :=
  {| vn_iden := replica_iden (iden n) i;
     vn_hash := hashfunc (replica_iden (iden n) i);
     vn_node := n |}.

(** Modelled from the spec: [conhash_init] of the conhash library, which
    returns an empty Ring. *)
Definition conhash_init : conhash_s := [].

(** Modelled from the spec: [conhash_set_node] of the conhash library,
    which records the identity string and the number of replicas in the
    node and leaves its other members. *)
Definition conhash_set_node (n : node_s) (str : string) (r : Z) : node_s :=
  {| iden := str; replicas := r; dest := dest n |}.

(** Modelled from the spec: [conhash_add_node] of the conhash library,
    which inserts the virtual nodes [0 .. replicas-1] of the node. *)
Definition conhash_add_node (c : conhash_s) (n : node_s) : conhash_s :=
  fold_left (fun r i => ring_insert (replica n i) r)
            (seq 0 (Z.to_nat (replicas n))) c.

(** Modelled from the spec: [conhash_del_node] of the conhash library,
    which removes the virtual nodes [0 .. replicas-1] of the node, by
    identity. *)
Definition conhash_del_node (c : conhash_s) (n : node_s) : conhash_s :=
  fold_left (fun r i => ring_remove (replica_iden (iden n) i) r)
            (seq 0 (Z.to_nat (replicas n))) c.

(** Modelled from the spec: [conhash_lookup] of the conhash library, which
    hashes the key and returns the owner of its successor on the Ring,
    NULL on an empty Ring. *)
Definition conhash_lookup (c : conhash_s) (key : string) : option node_s :=
  vn_node <$> lookupSuccessor (hashfunc key) c.
End Conhash.

(** ** Formatting and byte order *)

(** [%u] of [sprintf]: the decimal digits of an unsigned value. *)
Definition fmt_u (x : Z) : string := pretty (Z.to_N x).

(** [__swab32]: the four bytes of a 32-bit word in reverse order. *)
Definition swab32 (x : Z) : Z :=
  Z.lor (Z.lor (Z.lor (Z.shiftl (Z.land x 0x000000ff) 24)
                      (Z.shiftl (Z.land x 0x0000ff00) 8))
               (Z.shiftr (Z.land x 0x00ff0000) 8))
        (Z.shiftr (Z.land x 0xff000000) 24).

(** ** The table and the kernel state *)

(** The links of a [struct list_head] that heads a list: whatever [kmalloc]
    left there before the first [INIT_LIST_HEAD], the links of a list after
    [INIT_LIST_HEAD] and [list_add_tail], [LIST_POISON1] and [LIST_POISON2]
    after [list_del]. *)
Inductive list_head_links := Uninitialised | Linked | Poisoned.

(** [struct ip_vs_ch_bucket].  [node_head] is the list of [struct node_list]
    entries in list order, an entry being its [node] member; [head_links]
    tells whether the links of the head are in order, and only then does
    the head lead to the entries. *)
Record ip_vs_ch_bucket := {
  count : Z;
  conhash : conhash_s;
  node_head : list node_s;
  head_links : list_head_links
}.

(** The fields of [struct ip_vs_service] the module touches: the address
    family, the list of destinations (linked through [n_list], hence by
    address) and the scheduler's private data. *)
Record ip_vs_service := {
  af : Z;
  destinations : list dest_ptr;
  sched_data : option ip_vs_ch_bucket
}.

(** A packet, reduced to what [ip_vs_fill_iphdr] reads from its network
    header. *)
Record sk_buff := {
  nh_len : Z;
  nh_protocol : Z;
  nh_saddr : nf_inet_addr;
  nh_daddr : nf_inet_addr
}.

(** [struct ip_vs_iphdr] *)
Record ip_vs_iphdr := {
  len : Z;
  protocol : Z;
  saddr : nf_inet_addr;
  daddr : nf_inet_addr
}.

Definition ip_vs_fill_iphdr (af : Z) (skb : sk_buff) : ip_vs_iphdr :=
  {| len := nh_len skb; protocol := nh_protocol skb;
     saddr := nh_saddr skb; daddr := nh_daddr skb |}.

(** The kernel state the module works on: the outcomes of the coming
    [kmalloc] calls ([true]: memory was available; past the end of the list
    every call succeeds) and the destinations in memory. *)
Record kstate := {
  kmem : list bool;
  dests : gmap positive ip_vs_dest
}.

Definition kmalloc (m : list bool) : bool * list bool :=
  match m with
  | [] => (true, [])
  | b :: m' => (b, m')
  end.

Definition atomic_inc_refcnt (d : ip_vs_dest) : ip_vs_dest :=
  {| addr := addr d; port := port d; flags := flags d; weight := weight d;
     refcnt := int32 (refcnt d + 1) |}.

Definition atomic_dec_refcnt (d : ip_vs_dest) : ip_vs_dest :=
  {| addr := addr d; port := port d; flags := flags d; weight := weight d;
     refcnt := int32 (refcnt d - 1) |}.

(** ** The module *)

Section Scheduler.
Context {plat : Platform}.

(** [ntohl]: network to host byte order on 32 bits. *)
Definition ntohl (x : Z) : Z := if big_endian then uint32 x else swab32 x.

(** The key of [ip_vs_ch_get]: [sprintf(str, "%u:%u", ntohl(addr->ip), sport)]. *)
Definition lookup_key (a : nf_inet_addr) (sport : Z) : string :=
  fmt_u (ntohl (ip a)) +:+ ":" +:+ fmt_u sport.

(** The identity of a destination's node in [ip_vs_ch_assign]:
    [sprintf(str, "%u", ntohl(dest->addr.ip))]. *)
Definition dest_iden (d : ip_vs_dest) : string := fmt_u (ntohl (ip (addr d))).

Definition ip_vs_ch_get (af : Z) (tbl : ip_vs_ch_bucket)
    (a : nf_inet_addr) (sport : Z) : option dest_ptr :=
  let str := lookup_key a sport in
  match conhash_lookup (conhash tbl) str with
  | None => None
  | Some node => dest node
  end.

(** The body of [list_for_each_entry(dest, &svc->destinations, n_list)] in
    [ip_vs_ch_assign], on the destinations still to visit.
    [list_add_tail] writes through the links of the head, which have to be
    those of a list. *)
Fixpoint assign_loop (l : list dest_ptr) (tbl : ip_vs_ch_bucket) (k : kstate)
    : option (Z * ip_vs_ch_bucket * kstate) :=
  match l with
  | [] => Some (0, tbl, k)
  | p :: l' =>
      d ← dests k !! p;
      let w := weight d in
      if 0 <? w then
        let '(ok, m) := kmalloc (kmem k) in
        if ok then
          match head_links tbl with
          | Linked =>
              let p_node :=
                conhash_set_node
                  {| iden := EmptyString; replicas := 0; dest := Some p |}
                  (dest_iden d) (int32 (w * REPLICA)) in
              assign_loop l'
                {| count := uint32 (count tbl + 1);
                   conhash := conhash_add_node (conhash tbl) p_node;
                   node_head := node_head tbl ++ [p_node];
                   head_links := Linked |}
                {| kmem := m; dests := alter atomic_inc_refcnt p (dests k) |}
          | _ => None
          end
        else Some (- ENOMEM, tbl, {| kmem := m; dests := dests k |})
      else assign_loop l' tbl k
  end.

(** [ip_vs_ch_assign] starts with [INIT_LIST_HEAD(&tbl->node_head)]. *)
Definition ip_vs_ch_assign (tbl : ip_vs_ch_bucket) (svc : ip_vs_service)
    (k : kstate) : option (Z * ip_vs_ch_bucket * kstate) :=
  assign_loop (destinations svc)
    {| count := count tbl; conhash := conhash tbl; node_head := [];
       head_links := Linked |} k.

(** Memory handed to [kfree] is no longer the module's: a read of a member
    of a freed object has no defined result, whatever the member [held]. *)
Definition read_freed {A} (held : A) : option A := None.

(** [list_for_each_entry(nl, &tbl->node_head, n_list)] in [ip_vs_ch_flush],
    on the entries still to visit.  The body ends with [kfree(nl)] and the
    step of the loop, which is the plain one and not that of
    [list_for_each_entry_safe], then takes the next entry from
    [nl->n_list.next], a member of the entry just freed. *)
Fixpoint flush_loop (l : list node_s) (tbl : ip_vs_ch_bucket) (k : kstate)
    : option (ip_vs_ch_bucket * kstate) :=
  match l with
  | [] => Some (tbl, k)
  | nl :: l' =>
      k' ← match dest nl with
           | Some p =>
               _ ← dests k !! p;
               Some {| kmem := kmem k;
                       dests := alter atomic_dec_refcnt p (dests k) |}
           | None => Some k
           end;
      let node := {| iden := iden nl; replicas := replicas nl; dest := None |} in
      let tbl' :=
        {| count := uint32 (count tbl - 1);
           conhash := conhash_del_node (conhash tbl) node;
           node_head := node_head tbl;
           head_links := head_links tbl |} in
      _ ← read_freed l';
      flush_loop l' tbl' k'
  end.

(** The traversal starts from the links of the head, which have to be those
    of a list; [list_del(&tbl->node_head)] then leaves the head poisoned,
    and [count] is set to 0. *)
Definition ip_vs_ch_flush (tbl : ip_vs_ch_bucket) (k : kstate)
    : option (ip_vs_ch_bucket * kstate) :=
  match head_links tbl with
  | Linked =>
      '(tbl', k') ← flush_loop (node_head tbl) tbl k;
      Some ({| count := 0; conhash := conhash tbl'; node_head := [];
               head_links := Poisoned |}, k')
  | _ => None
  end.

Definition set_sched_data (svc : ip_vs_service)
    (t : option ip_vs_ch_bucket) : ip_vs_service :=
  {| af := af svc; destinations := destinations svc; sched_data := t |}.

Definition ip_vs_ch_init_svc (svc : ip_vs_service) (k : kstate)
    : option (Z * ip_vs_service * kstate) :=
  let '(ok, m) := kmalloc (kmem k) in
  let k1 := {| kmem := m; dests := dests k |} in
  if ok then
    let tbl := {| count := 0; conhash := conhash_init; node_head := [];
                  head_links := Uninitialised |} in
    '(_, tbl', k2) ← ip_vs_ch_assign tbl svc k1;
    Some (0, set_sched_data svc (Some tbl'), k2)
  else Some (- ENOMEM, svc, k1).

(** After [kfree(svc->sched_data)] the table is gone: [sched_data] is left
    unset. *)
Definition ip_vs_ch_done_svc (svc : ip_vs_service) (k : kstate)
    : option (Z * ip_vs_service * kstate) :=
  tbl ← sched_data svc;
  '(_, k') ← ip_vs_ch_flush tbl k;
  Some (0, set_sched_data svc None, k').

Definition ip_vs_ch_update_svc (svc : ip_vs_service) (k : kstate)
    : option (Z * ip_vs_service * kstate) :=
  tbl ← sched_data svc;
  '(tbl1, k1) ← ip_vs_ch_flush tbl k;
  '(_, tbl2, k2) ← ip_vs_ch_assign tbl1 svc k1;
  Some (0, set_sched_data svc (Some tbl2), k2).

Definition is_overloaded (d : ip_vs_dest) : Z :=
  Z.land (flags d) IP_VS_DEST_F_OVERLOAD.

(** The test of the scheduling loop that sends a found destination to
    [continue]. *)
Definition skipped (d : ip_vs_dest) : bool :=
  (Z.land (flags d) IP_VS_DEST_F_AVAILABLE =? 0)
  || (weight d <=? 0)
  || negb (is_overloaded d =? 0).

(** [for (i = 0; i < tbl->count; i++)] with [n] iterations left; the
    index reaches [ip_vs_ch_get] through its [__be16] parameter. *)
Fixpoint schedule_loop (n : nat) (i : Z) (af : Z) (tbl : ip_vs_ch_bucket)
    (a : nf_inet_addr) (k : kstate) : option (option dest_ptr) :=
  match n with
  | O => Some None
  | S n' =>
      match ip_vs_ch_get af tbl a (uint16 i) with
      | None => schedule_loop n' (i + 1) af tbl a k
      | Some p =>
          d ← dests k !! p;
          if skipped d then schedule_loop n' (i + 1) af tbl a k
          else Some (Some p)
      end
  end.

Definition ip_vs_ch_schedule (svc : ip_vs_service) (skb : sk_buff)
    (k : kstate) : option (option dest_ptr * kstate) :=
  let iph := ip_vs_fill_iphdr (af svc) skb in
  tbl ← sched_data svc;
  r ← schedule_loop (Z.to_nat (count tbl)) 0 (af svc) tbl (saddr iph) k;
  Some (r, k).
End Scheduler.

(** ** Vocabulary of the statements *)

(** The hash values never decrease along the ring. *)
Definition hash_sorted (r : conhash_s) : Prop :=
  StronglySorted (λ a b, vn_hash a <= vn_hash b) r.

(** A destination with its reference count blanked: what the module reads of
    a destination apart from the count it maintains. *)
Definition erase_refcnt (d : ip_vs_dest) : ip_vs_dest :=
  {| addr := addr d; port := port d; flags := flags d; weight := weight d;
     refcnt := 0 |}.

(** What the scheduling loop reads of a destination. *)
Definition sched_view (d : ip_vs_dest) : Z * Z := (flags d, weight d).

(** Two stores that show the scheduling loop the same flags and weights. *)
Definition same_view (k1 k2 : kstate) : Prop :=
  ∀ p : dest_ptr, sched_view <$> dests k1 !! p = sched_view <$> dests k2 !! p.

(** Every address of the list is mapped by the store. *)
Definition dests_mapped (k : kstate) (l : list dest_ptr) : Prop :=
  Forall (λ p, is_Some (dests k !! p)) l.

(** Every coming allocation succeeds. *)
Definition kmem_ok (k : kstate) : Prop := Forall (λ b, b = true) (kmem k).

(** The destinations referenced by a list of node entries. *)
Definition node_dests (l : list node_s) : list dest_ptr := omap dest l.

(** The listed destinations of positive weight, in list order. *)
Definition weighted (ds : gmap positive ip_vs_dest) (l : list dest_ptr)
    : list dest_ptr :=
  List.filter
    (λ p, match ds !! p with Some d => 0 <? weight d | None => false end) l.

(** The reference count stored at an address. *)
Definition refcnt_at (k : kstate) (p : dest_ptr) : option Z :=
  refcnt <$> dests k !! p.

Section Vocabulary.
Context {plat : Platform}.

(** The ring only hands out destinations that the store maps. *)
Definition ring_dests_mapped (k : kstate) (tbl : ip_vs_ch_bucket) : Prop :=
  ∀ v (p : dest_ptr),
    v ∈ conhash tbl → dest (vn_node v) = Some p → is_Some (dests k !! p).

(** The candidate of attempt [i]: the owner of the successor of the key
    made of the source address and the index. *)
Definition candidate (tbl : ip_vs_ch_bucket) (a : nf_inet_addr) (i : Z)
    : option dest_ptr :=
  conhash_lookup (conhash tbl)
    (fmt_u (ntohl (ip a)) +:+ ":" +:+ fmt_u (uint16 i)) ≫= dest.

(** A candidate the loop passes over: missing, not AVAILABLE, overloaded
    or of weight <= 0. *)
Definition rejected (k : kstate) (c : option dest_ptr) : Prop :=
  match c with
  | None => True
  | Some p =>
      ∃ d, dests k !! p = Some d
           ∧ (Z.land (flags d) IP_VS_DEST_F_AVAILABLE = 0
              ∨ Z.land (flags d) IP_VS_DEST_F_OVERLOAD ≠ 0
              ∨ weight d <= 0)
  end.

(** A destination the loop may return. *)
Definition accepted (k : kstate) (p : dest_ptr) : Prop :=
  ∃ d, dests k !! p = Some d
       ∧ Z.land (flags d) IP_VS_DEST_F_AVAILABLE ≠ 0
       ∧ Z.land (flags d) IP_VS_DEST_F_OVERLOAD = 0
       ∧ 0 < weight d.

(** The node entry [ip_vs_ch_assign] fills in for the destination [d] at
    address [p]. *)
Definition node_of (p : dest_ptr) (d : ip_vs_dest) : node_s :=
  {| iden := dest_iden d; replicas := int32 (weight d * REPLICA);
     dest := Some p |}.

(** The node entries of a pass of [ip_vs_ch_assign] over the list [l] in
    which no allocation fails: one per destination of positive weight. *)
Definition nodes_for (ds : gmap positive ip_vs_dest) (l : list dest_ptr)
    : list node_s :=
  omap (λ p, d ← ds !! p; if 0 <? weight d then Some (node_of p d) else None) l.

(** The table of a rebuild over the list [l] in which no allocation
    fails. *)
Definition table_of (ds : gmap positive ip_vs_dest) (l : list dest_ptr)
    : ip_vs_ch_bucket :=
  {| count := uint32 (Z.of_nat (length (nodes_for ds l)));
     conhash := fold_left conhash_add_node (nodes_for ds l) conhash_init;
     node_head := nodes_for ds l;
     head_links := Linked |}.

(** The ring holds the virtual nodes of the entries of [node_head],
    inserted in list order. *)
Definition tbl_built (tbl : ip_vs_ch_bucket) : Prop :=
  conhash tbl = fold_left conhash_add_node (node_head tbl) conhash_init.

(** A table whose list of entries is in order and empty: the tables that
    [ip_vs_ch_flush] can traverse without reading a freed entry. *)
Definition no_entries (tbl : ip_vs_ch_bucket) : Prop :=
  head_links tbl = Linked ∧ node_head tbl = [].

(** What every call after a successful [ip_vs_ch_init_svc] finds: a table
    whose ring was built from its entries, and a store that maps the
    listed destinations and those the entries refer to. *)
Definition svc_ok (k : kstate) (svc : ip_vs_service) : Prop :=
  ∃ tbl, sched_data svc = Some tbl
         ∧ tbl_built tbl
         ∧ dests_mapped k (destinations svc)
         ∧ dests_mapped k (node_dests (node_head tbl)).

(** The store as [ip_vs_ch_assign] leaves it after adding the entries [l]:
    one [atomic_inc] per entry. *)
Definition refs_taken (l : list node_s) (ds : gmap positive ip_vs_dest)
    : gmap positive ip_vs_dest :=
  fold_left (λ h p, alter atomic_inc_refcnt p h) (node_dests l) ds.

(** The number of virtual nodes the destinations of positive weight ask
    for: the sum of [weight * REPLICA]. *)
Definition vnode_total (ds : gmap positive ip_vs_dest) (l : list dest_ptr) : Z :=
  fold_right
    (λ p s, match ds !! p with
            | Some d => if 0 <? weight d then weight d * REPLICA + s else s
            | None => s
            end)
    0 l.
End Vocabulary.

(** ** A concrete platform and scenario *)

(** FNV-1a on 32 bits, standing in for the library's hash function. *)
Definition sample_hash (s : string) : Z :=
  fold_left
    (λ h c, uint32 (Z.lxor h (Z.of_nat (Ascii.nat_of_ascii c)) * 16777619))
    (list_ascii_of_string s) 2166136261.

(** A little-endian host whose replicas are named "<identity>-<index>". *)
Definition sample_platform : Platform :=
  {| big_endian := false;
     hashfunc := sample_hash;
     replica_iden := λ s i, s +:+ "-" +:+ pretty i |}.

Definition ipv4 (x : Z) : nf_inet_addr :=
  {| word0 := x; word1 := 0; word2 := 0; word3 := 0 |}.

(** 10.0.0.1:80, weight 1, and 10.0.0.2:80, weight 3, both available. *)
Definition D1 : ip_vs_dest :=
  {| addr := ipv4 0x0100000a; port := 0x5000;
     flags := IP_VS_DEST_F_AVAILABLE; weight := 1; refcnt := 1 |}.
Definition D2 : ip_vs_dest :=
  {| addr := ipv4 0x0200000a; port := 0x5000;
     flags := IP_VS_DEST_F_AVAILABLE; weight := 3; refcnt := 1 |}.
(** 10.0.0.1:8080: the address of [D1] under another port. *)
Definition D1' : ip_vs_dest :=
  {| addr := ipv4 0x0100000a; port := 0x901f;
     flags := IP_VS_DEST_F_AVAILABLE; weight := 1; refcnt := 1 |}.

Definition two_dests (m : list bool) : kstate :=
  {| kmem := m; dests := <[2%positive := D2]> (<[1%positive := D1]> ∅) |}.

(** 10.0.0.2:80 marked overloaded. *)
Definition D2_overloaded : ip_vs_dest :=
  {| addr := ipv4 0x0200000a; port := 0x5000;
     flags := Z.lor IP_VS_DEST_F_AVAILABLE IP_VS_DEST_F_OVERLOAD;
     weight := 3; refcnt := 1 |}.

Definition two_dests_overloaded (m : list bool) : kstate :=
  {| kmem := m;
     dests := <[2%positive := D2_overloaded]> (<[1%positive := D1]> ∅) |}.

(** 10.0.0.1:80 and 10.0.0.1:8080 side by side. *)
Definition same_ip_dests (m : list bool) : kstate :=
  {| kmem := m; dests := <[2%positive := D1']> (<[1%positive := D1]> ∅) |}.

Definition two_dest_svc : ip_vs_service :=
  {| af := 2; destinations := [1%positive; 2%positive]; sched_data := None |}.

Definition one_dest (m : list bool) : kstate :=
  {| kmem := m; dests := <[1%positive := D1]> ∅ |}.

Definition one_dest_svc : ip_vs_service :=
  {| af := 2; destinations := [1%positive]; sched_data := None |}.

(** 10.0.0.1:80 quiesced: weight 0. *)
Definition D1_quiesced : ip_vs_dest :=
  {| addr := ipv4 0x0100000a; port := 0x5000;
     flags := IP_VS_DEST_F_AVAILABLE; weight := 0; refcnt := 2 |}.

Definition one_dest_quiesced (m : list bool) : kstate :=
  {| kmem := m; dests := <[1%positive := D1_quiesced]> ∅ |}.

(** The services above once their tables have been built. *)
Definition one_dest_tbl : ip_vs_ch_bucket :=
  @table_of sample_platform (dests (one_dest [])) (destinations one_dest_svc).
Definition one_dest_bound : ip_vs_service :=
  {| af := 2; destinations := [1%positive]; sched_data := Some one_dest_tbl |}.
Definition two_dest_tbl : ip_vs_ch_bucket :=
  @table_of sample_platform (dests (two_dests [])) (destinations two_dest_svc).
Definition two_dest_bound : ip_vs_service :=
  {| af := 2; destinations := [1%positive; 2%positive];
     sched_data := Some two_dest_tbl |}.

(** A table without entries, as [ip_vs_ch_init_svc] leaves it when the
    service has no destination of positive weight yet or when the first
    entry could not be allocated, and the services above bound to it. *)
Definition empty_tbl : ip_vs_ch_bucket :=
  {| count := 0; conhash := []; node_head := []; head_links := Linked |}.
Definition one_dest_unbuilt : ip_vs_service :=
  {| af := 2; destinations := [1%positive]; sched_data := Some empty_tbl |}.
Definition two_dest_unbuilt : ip_vs_service :=
  {| af := 2; destinations := [1%positive; 2%positive];
     sched_data := Some empty_tbl |}.

Definition packet_from (x : Z) : sk_buff :=
  {| nh_len := 20; nh_protocol := 6; nh_saddr := ipv4 x; nh_daddr := ipv4 0 |}.

(** Two sources whose 16-byte addresses agree on their first 32 bits and
    differ beyond, as 2001:db8::1 and 2001:db8:ffff::2 do. *)
Definition packet6_a : sk_buff :=
  {| nh_len := 40; nh_protocol := 6;
     nh_saddr := {| word0 := 0xb80d0120; word1 := 0; word2 := 0;
                    word3 := 0x01000000 |};
     nh_daddr := ipv4 0 |}.
Definition packet6_b : sk_buff :=
  {| nh_len := 40; nh_protocol := 6;
     nh_saddr := {| word0 := 0xb80d0120; word1 := 0x0000ffff; word2 := 0;
                    word3 := 0x02000000 |};
     nh_daddr := ipv4 0 |}.

(** * Properties *)

(** ** The ring *)

Lemma ring_successor_elem q r v : ring_successor q r = Some v → v ∈ r.
Proof.
  induction r as [|x r IH]; simpl; [done|].
  destruct (q <=? vn_hash x).
  - intros [= ->]. left.
  - intros Hv. right. auto.
Qed.

Lemma lookupSuccessor_elem q r v : lookupSuccessor q r = Some v → v ∈ r.
Proof.
  unfold lookupSuccessor.
  destruct (ring_successor q r) as [x|] eqn:E.
  - intros [= <-]. eauto using ring_successor_elem.
  - destruct r; simpl; [done|]. intros [= ->]. left.
Qed.

Lemma lookupSuccessor_none q r : lookupSuccessor q r = None ↔ r = [].
Proof.
  unfold lookupSuccessor. split.
  - destruct (ring_successor q r); [done|]. by destruct r.
  - by intros ->.
Qed.

Lemma ring_insert_elem v x r : x ∈ ring_insert v r ↔ x = v ∨ x ∈ r.
Proof.
  induction r as [|y r IH]; simpl.
  - rewrite list_elem_of_singleton. split; [auto|].
    intros [?|Hx]; [done|]. by apply elem_of_nil in Hx.
  - destruct (vnode_ltb v y).
    + by rewrite elem_of_cons.
    + rewrite !elem_of_cons, IH. tauto.
Qed.

Lemma ring_insert_length v r : length (ring_insert v r) = S (length r).
Proof.
  induction r as [|y r IH]; simpl; [done|].
  destruct (vnode_ltb v y); simpl; congruence.
Qed.

Lemma ring_remove_elem s x r : x ∈ ring_remove s r ↔ x ∈ r ∧ vn_iden x ≠ s.
Proof.
  induction r as [|y r IH]; simpl.
  - split; [intros Hx|intros [Hx _]]; by apply elem_of_nil in Hx.
  - destruct (String.eqb_spec (vn_iden y) s) as [E|E].
    + rewrite IH, elem_of_cons. split; [tauto|].
      intros [[->|?] ?]; [done|tauto].
    + rewrite !elem_of_cons, IH. split; [|tauto].
      intros [->|[? ?]]; tauto.
Qed.

Lemma ring_remove_idem s r : ring_remove s (ring_remove s r) = ring_remove s r.
Proof.
  induction r as [|y r IH]; simpl; [done|].
  destruct (String.eqb_spec (vn_iden y) s) as [E|E]; [done|].
  simpl. destruct (String.eqb_spec (vn_iden y) s); congruence.
Qed.

Lemma no_elem_nil {A} (l : list A) : (∀ x, x ∉ l) → l = [].
Proof. destruct l as [|x l]; [done|]. intros Hl. destruct (Hl x). left. Qed.

Lemma vnode_ltb_le a b : vnode_ltb a b = true → vn_hash a <= vn_hash b.
Proof.
  unfold vnode_ltb. rewrite orb_true_iff, andb_true_iff, Z.ltb_lt, Z.eqb_eq. lia.
Qed.

Lemma vnode_ltb_ge a b : vnode_ltb a b = false → vn_hash b <= vn_hash a.
Proof.
  unfold vnode_ltb. rewrite orb_false_iff, Z.ltb_ge. lia.
Qed.

Lemma ring_insert_sorted v r : hash_sorted r → hash_sorted (ring_insert v r).
Proof.
  unfold hash_sorted. induction 1 as [|x r Hr IH Hx]; simpl.
  - repeat constructor.
  - destruct (vnode_ltb v x) eqn:E.
    + apply vnode_ltb_le in E. constructor; [by constructor|].
      constructor; [done|]. eapply Forall_impl; [exact Hx|]. simpl. lia.
    + apply vnode_ltb_ge in E. constructor; [done|].
      apply Forall_forall. intros y Hy. apply ring_insert_elem in Hy as [->|Hy]; [done|].
      rewrite Forall_forall in Hx. by apply Hx.
Qed.

Lemma ring_remove_sorted s r : hash_sorted r → hash_sorted (ring_remove s r).
Proof.
  unfold hash_sorted. induction 1 as [|x r Hr IH Hx]; simpl; [constructor|].
  destruct (String.eqb (vn_iden x) s); [done|]. constructor; [done|].
  apply Forall_forall. intros y Hy. apply ring_remove_elem in Hy as [Hy _].
  rewrite Forall_forall in Hx. by apply Hx.
Qed.

(** On a sorted ring the successor of [q] is an entry of least hash among
    those at or after [q], and the entry of least hash when there is none. *)
Lemma lookupSuccessor_least q r v :
  hash_sorted r → lookupSuccessor q r = Some v →
  (q <= vn_hash v ∧ ∀ x, x ∈ r → q <= vn_hash x → vn_hash v <= vn_hash x)
  ∨ ((∀ x, x ∈ r → vn_hash x < q) ∧ ∀ x, x ∈ r → vn_hash v <= vn_hash x).
Proof.
  unfold lookupSuccessor, hash_sorted. intros Hs.
  destruct (ring_successor q r) as [w|] eqn:E.
  - intros [= ->]. left. induction Hs as [|x r Hr IH Hx]; simpl in E; [done|].
    destruct (Z.leb_spec q (vn_hash x)) as [Hq|Hq].
    + injection E as ->. split; [done|]. intros y Hy _.
      apply elem_of_cons in Hy as [->|Hy]; [lia|].
      rewrite Forall_forall in Hx. by apply Hx.
    + destruct (IH E) as [Hv Hmin]. split; [done|]. intros y Hy Hqy.
      apply elem_of_cons in Hy as [->|Hy]; [lia|]. by apply Hmin.
  - intros Hh. right. split.
    + clear Hh. induction Hs as [|x r Hr IH Hx]; simpl in E.
      * intros x Hx. by apply elem_of_nil in Hx.
      * destruct (Z.leb_spec q (vn_hash x)) as [Hq|Hq]; [done|].
        intros y Hy. apply elem_of_cons in Hy as [->|Hy]; [done|]. by apply IH.
    + destruct Hs as [|x r Hr Hx]; simpl in Hh; [done|]. injection Hh as ->.
      intros y Hy. apply elem_of_cons in Hy as [->|Hy]; [lia|].
      rewrite Forall_forall in Hx. by apply Hx.
Qed.

(** ** The consistent-hash operations *)

Section ConhashFacts.
Context {plat : Platform}.

Lemma conhash_add_node_elem c n v :
  v ∈ conhash_add_node c n ↔
  v ∈ c ∨ ∃ i, (i < Z.to_nat (replicas n))%nat ∧ v = replica n i.
Proof.
  unfold conhash_add_node.
  assert (G : ∀ l c, v ∈ fold_left (λ r i, ring_insert (replica n i) r) l c
                     ↔ v ∈ c ∨ ∃ i, i ∈ l ∧ v = replica n i).
  { clear c. induction l as [|j l IH]; intros c; simpl.
    - split; [auto|]. intros [?|(i & Hi & _)]; [done|]. by apply elem_of_nil in Hi.
    - rewrite IH, ring_insert_elem. split.
      + intros [[->|?]|(i & Hi & ->)]; eauto.
        * right. exists j. split; [left|done].
        * right. exists i. split; [by right|done].
      + intros [?|(i & Hi & ->)]; [auto|].
        apply elem_of_cons in Hi as [->|Hi]; eauto. }
  rewrite G. setoid_rewrite elem_of_seq. split.
  - intros [?|(i & Hi & ->)]; [auto|]. right. exists i. split; [lia|done].
  - intros [?|(i & Hi & ->)]; [auto|]. right. exists i. split; [lia|done].
Qed.

Lemma conhash_add_node_length c n :
  length (conhash_add_node c n) = (length c + Z.to_nat (replicas n))%nat.
Proof.
  unfold conhash_add_node.
  assert (G : ∀ l c, length (fold_left (λ r i, ring_insert (replica n i) r) l c)
                     = (length c + length l)%nat).
  { clear c. induction l as [|j l IH]; intros c; simpl; [lia|].
    rewrite IH, ring_insert_length. lia. }
  by rewrite G, length_seq.
Qed.

Lemma add_nodes_length l c :
  Z.of_nat (length (fold_left conhash_add_node l c)) =
  Z.of_nat (length c) + fold_right (λ n s, Z.max 0 (replicas n) + s) 0 l.
Proof.
  revert c. induction l as [|m l IH]; intros c; simpl; [lia|].
  rewrite IH, conhash_add_node_length. lia.
Qed.

Lemma conhash_del_node_elem c n v :
  v ∈ conhash_del_node c n ↔
  v ∈ c ∧ ∀ i, (i < Z.to_nat (replicas n))%nat → vn_iden v ≠ replica_iden (iden n) i.
Proof.
  unfold conhash_del_node.
  assert (G : ∀ l c,
    v ∈ fold_left (λ r i, ring_remove (replica_iden (iden n) i) r) l c
    ↔ v ∈ c ∧ ∀ i, i ∈ l → vn_iden v ≠ replica_iden (iden n) i).
  { clear c. induction l as [|j l IH]; intros c; simpl.
    - split; [|tauto]. intros ?. split; [done|]. intros i Hi. by apply elem_of_nil in Hi.
    - rewrite IH, ring_remove_elem. split.
      + intros [[? ?] Hl]. split; [done|]. intros i Hi.
        apply elem_of_cons in Hi as [->|Hi]; auto.
      + intros [? Hl]. repeat split; [done| |].
        * apply Hl. left.
        * intros i Hi. apply Hl. by right. }
  rewrite G. setoid_rewrite elem_of_seq. split.
  - intros [? Hl]. split; [done|]. intros i Hi. apply Hl. lia.
  - intros [? Hl]. split; [done|]. intros i Hi. apply Hl. lia.
Qed.

Lemma add_nodes_elem l c v :
  v ∈ fold_left conhash_add_node l c ↔
  v ∈ c ∨ ∃ n i, n ∈ l ∧ (i < Z.to_nat (replicas n))%nat ∧ v = replica n i.
Proof.
  revert c. induction l as [|m l IH]; intros c; simpl.
  - split; [auto|]. intros [?|(n & i & Hn & _)]; [done|]. by apply elem_of_nil in Hn.
  - rewrite IH, conhash_add_node_elem. split.
    + intros [[?|(i & Hi & ->)]|(n & i & Hn & Hi & ->)]; [auto| |].
      * right. exists m, i. split; [left|done].
      * right. exists n, i. split; [by right|done].
    + intros [?|(n & i & Hn & Hi & ->)]; [auto|].
      apply elem_of_cons in Hn as [->|Hn]; [left; right; eauto|].
      right. eauto.
Qed.

Lemma del_nodes_elem l c v :
  v ∈ fold_left conhash_del_node l c ↔
  v ∈ c ∧ ∀ n i, n ∈ l → (i < Z.to_nat (replicas n))%nat →
                 vn_iden v ≠ replica_iden (iden n) i.
Proof.
  revert c. induction l as [|m l IH]; intros c; simpl.
  - split; [|tauto]. intros ?. split; [done|]. intros n i Hn. by apply elem_of_nil in Hn.
  - rewrite IH, conhash_del_node_elem. split.
    + intros [[? Hm] Hl]. split; [done|]. intros n i Hn Hi.
      apply elem_of_cons in Hn as [->|Hn]; eauto.
    + intros [? Hl]. repeat split; [done| |].
      * intros i Hi. apply Hl; [left|done].
      * intros n i Hn Hi. apply Hl; [by right|done].
Qed.

Lemma conhash_add_node_sorted c n :
  hash_sorted c → hash_sorted (conhash_add_node c n).
Proof.
  unfold conhash_add_node. generalize (seq 0 (Z.to_nat (replicas n))).
  intros l. revert c. induction l as [|i l IH]; intros c Hc; simpl; [done|].
  by apply IH, ring_insert_sorted.
Qed.

Lemma conhash_del_node_sorted c n :
  hash_sorted c → hash_sorted (conhash_del_node c n).
Proof.
  unfold conhash_del_node. generalize (seq 0 (Z.to_nat (replicas n))).
  intros l. revert c. induction l as [|i l IH]; intros c Hc; simpl; [done|].
  by apply IH, ring_remove_sorted.
Qed.

Lemma add_nodes_sorted l c :
  hash_sorted c → hash_sorted (fold_left conhash_add_node l c).
Proof.
  revert c. induction l as [|n l IH]; intros c Hc; simpl; [done|].
  by apply IH, conhash_add_node_sorted.
Qed.
End ConhashFacts.

(** ** Machine integers and byte order *)

Lemma int32_small x : - 2 ^ 31 <= x < 2 ^ 31 → int32 x = x.
Proof. unfold int32. intros Hx. Z.div_mod_to_equations. lia. Qed.

Lemma uint32_add_l a b : uint32 (uint32 a + b) = uint32 (a + b).
Proof. unfold uint32. by rewrite Zplus_mod_idemp_l. Qed.

Lemma uint32_small x : 0 <= x < 2 ^ 32 → uint32 x = x.
Proof. unfold uint32. intros Hx. by apply Z.mod_small. Qed.

Lemma testbit_byte_mask k m :
  0 <= k → Z.testbit (Z.shiftl (Z.ones 8) k) m = (k <=? m) && (m <? k + 8).
Proof.
  intros Hk. destruct (Z.leb_spec 0 m) as [Hm|Hm].
  - rewrite Z.shiftl_spec, Z.testbit_ones by lia.
    destruct (Z.leb_spec 0 (m - k)), (Z.ltb_spec (m - k) 8),
      (Z.leb_spec k m), (Z.ltb_spec m (k + 8)); simpl; lia.
  - rewrite Z.testbit_neg_r by lia.
    destruct (Z.leb_spec k m); simpl; [lia|done].
Qed.

(** Bit [n] of the swapped word is the bit of the mirrored byte. *)
Lemma swab32_testbit x n :
  0 <= n →
  Z.testbit (swab32 x) n =
    if n <? 8 then Z.testbit x (n + 24)
    else if n <? 16 then Z.testbit x (n + 8)
    else if n <? 24 then Z.testbit x (n - 8)
    else if n <? 32 then Z.testbit x (n - 24)
    else false.
Proof.
  intros Hn. unfold swab32.
  change 0x000000ff with (Z.shiftl (Z.ones 8) 0).
  change 0x0000ff00 with (Z.shiftl (Z.ones 8) 8).
  change 0x00ff0000 with (Z.shiftl (Z.ones 8) 16).
  change 0xff000000 with (Z.shiftl (Z.ones 8) 24).
  rewrite !Z.lor_spec, !Z.shiftl_spec, !Z.shiftr_spec, !Z.land_spec by lia.
  rewrite !testbit_byte_mask by lia.
  destruct (Z.ltb_spec n 8), (Z.ltb_spec n 16), (Z.ltb_spec n 24),
    (Z.ltb_spec n 32); try lia;
  repeat match goal with
  | |- context [Z.leb ?a ?b] => destruct (Z.leb_spec a b); try lia
  | |- context [Z.ltb ?a ?b] => destruct (Z.ltb_spec a b); try lia
  end; simpl; rewrite ?andb_false_r, ?andb_true_r, ?orb_false_r; reflexivity.
Qed.

Lemma swab32_involutive x : swab32 (swab32 x) = uint32 x.
Proof.
  apply Z.bits_inj'. intros n Hn. unfold uint32.
  rewrite Z.testbit_mod_pow2 by lia.
  rewrite swab32_testbit by lia.
  destruct (Z.ltb_spec n 8), (Z.ltb_spec n 16), (Z.ltb_spec n 24),
    (Z.ltb_spec n 32); try lia; simpl; try done;
  rewrite swab32_testbit by lia;
  repeat match goal with
  | |- context [Z.ltb ?a ?b] => destruct (Z.ltb_spec a b); try lia
  end; f_equal; lia.
Qed.

Lemma swab32_uint32 x : swab32 (uint32 x) = swab32 x.
Proof.
  apply Z.bits_inj'. intros n Hn. rewrite !swab32_testbit by lia.
  unfold uint32.
  destruct (Z.ltb_spec n 8), (Z.ltb_spec n 16), (Z.ltb_spec n 24),
    (Z.ltb_spec n 32); try lia; try done;
  rewrite Z.testbit_mod_pow2 by lia;
  match goal with
  | |- context [Z.ltb ?a ?b] => destruct (Z.ltb_spec a b); try lia
  end; done.
Qed.

Lemma swab32_inj x y : swab32 x = swab32 y ↔ uint32 x = uint32 y.
Proof.
  split; intros E.
  - by rewrite <- !swab32_involutive, E.
  - by rewrite <- (swab32_uint32 x), E, swab32_uint32.
Qed.

Lemma swab32_range x : 0 <= swab32 x < 2 ^ 32.
Proof.
  assert (E : swab32 x = uint32 (swab32 x)).
  { by rewrite <- (swab32_involutive (swab32 x)), (swab32_involutive x),
      swab32_uint32. }
  rewrite E. unfold uint32. apply Z.mod_pos_bound. lia.
Qed.

Lemma fmt_u_inj x y : 0 <= x → 0 <= y → fmt_u x = fmt_u y → x = y.
Proof.
  unfold fmt_u. intros Hx Hy E. apply (inj pretty) in E. lia.
Qed.

(** ** The store of destinations *)

Lemma erase_atomic_inc d : erase_refcnt (atomic_inc_refcnt d) = erase_refcnt d.
Proof. done. Qed.

Lemma erase_atomic_dec d : erase_refcnt (atomic_dec_refcnt d) = erase_refcnt d.
Proof. done. Qed.

Lemma erase_alter (f : ip_vs_dest → ip_vs_dest) (p : dest_ptr)
    (h : gmap positive ip_vs_dest) :
  (∀ d, erase_refcnt (f d) = erase_refcnt d) →
  erase_refcnt <$> alter f p h = erase_refcnt <$> h.
Proof.
  intros Hf. apply map_eq. intros q. rewrite !lookup_fmap.
  destruct (decide (p = q)) as [->|Hne].
  - rewrite lookup_alter_eq. destruct (h !! q); simpl; [|done]. by rewrite Hf.
  - by rewrite lookup_alter_ne.
Qed.


Lemma erase_lookup (h1 h2 : gmap positive ip_vs_dest) (p : dest_ptr) :
  erase_refcnt <$> h1 = erase_refcnt <$> h2 →
  erase_refcnt <$> h1 !! p = erase_refcnt <$> h2 !! p.
Proof. intros E. by rewrite <- !lookup_fmap, E. Qed.

Lemma lookup_alter_list (f : ip_vs_dest → ip_vs_dest) (l : list dest_ptr)
    (h : gmap positive ip_vs_dest) (q : dest_ptr) :
  NoDup l →
  fold_left (λ h p, alter f p h) l h !! q =
    if decide (q ∈ l) then f <$> h !! q else h !! q.
Proof.
  intros Hl. revert h. induction Hl as [|p l Hp Hl IH]; intros h; simpl.
  - destruct (decide (q ∈ [])) as [Hq|Hq]; [by apply elem_of_nil in Hq|done].
  - rewrite IH. destruct (decide (q = p)) as [->|Hne].
    + destruct (decide (p ∈ l)); [done|].
      destruct (decide (p ∈ p :: l)) as [_|Hq]; [|destruct Hq; left].
      by rewrite lookup_alter_eq.
    + rewrite lookup_alter_ne by done.
      destruct (decide (q ∈ l)) as [Hq|Hq], (decide (q ∈ p :: l)) as [Hq'|Hq'];
        try done.
      * destruct Hq'. by right.
      * apply elem_of_cons in Hq' as [?|?]; done.
Qed.

Lemma is_Some_alter_list (f : ip_vs_dest → ip_vs_dest) (l : list dest_ptr)
    (h : gmap positive ip_vs_dest) (q : dest_ptr) :
  is_Some (fold_left (λ h p, alter f p h) l h !! q) ↔ is_Some (h !! q).
Proof.
  revert h. induction l as [|p l IH]; intros h; simpl; [done|].
  rewrite IH. destruct (decide (p = q)) as [->|Hne].
  - rewrite lookup_alter_eq. by rewrite fmap_is_Some.
  - by rewrite lookup_alter_ne.
Qed.

Lemma same_view_erase k1 k2 :
  erase_refcnt <$> dests k1 = erase_refcnt <$> dests k2 → same_view k1 k2.
Proof.
  intros E p. apply (erase_lookup _ _ p) in E.
  destruct (dests k1 !! p) as [d1|], (dests k2 !! p) as [d2|];
    simpl in *; try done.
  assert (E' : erase_refcnt d1 = erase_refcnt d2) by congruence.
  pose proof (f_equal flags E') as Hf. pose proof (f_equal weight E') as Hw.
  simpl in Hf, Hw. unfold sched_view. by rewrite Hf, Hw.
Qed.

(** ** Building and flushing the table *)

Section TableFacts.
Context {plat : Platform}.

Lemma nodes_for_erase h1 h2 l :
  erase_refcnt <$> h1 = erase_refcnt <$> h2 → nodes_for h1 l = nodes_for h2 l.
Proof.
  intros E. unfold nodes_for. induction l as [|p l IH]; [done|].
  cbn [omap list_omap]. rewrite IH. apply (erase_lookup _ _ p) in E.
  destruct (h1 !! p) as [d1|], (h2 !! p) as [d2|]; simpl in *; try done.
  assert (E' : erase_refcnt d1 = erase_refcnt d2) by congruence.
  pose proof (f_equal weight E') as Hw. pose proof (f_equal addr E') as Ha.
  simpl in Hw, Ha. unfold node_of, dest_iden. by rewrite Hw, Ha.
Qed.

Lemma nodes_for_cons_pos h p d l :
  h !! p = Some d → 0 < weight d →
  nodes_for h (p :: l) = node_of p d :: nodes_for h l.
Proof.
  intros Hd Hw. unfold nodes_for. simpl. rewrite Hd. simpl.
  destruct (Z.ltb_spec 0 (weight d)); [done|lia].
Qed.

Lemma nodes_for_cons_nonpos h p d l :
  h !! p = Some d → weight d <= 0 → nodes_for h (p :: l) = nodes_for h l.
Proof.
  intros Hd Hw. unfold nodes_for. simpl. rewrite Hd. simpl.
  destruct (Z.ltb_spec 0 (weight d)); [lia|done].
Qed.

(** Each entry of [nodes_for] belongs to a listed destination of positive
    weight and is named after the [ip] word of its address. *)
Lemma nodes_for_elem h l n :
  n ∈ nodes_for h l →
  ∃ p d, p ∈ l ∧ h !! p = Some d ∧ 0 < weight d ∧ n = node_of p d.
Proof.
  unfold nodes_for. rewrite list_elem_of_omap.
  intros (p & Hp & Hn). destruct (h !! p) as [d|] eqn:Hd; simpl in Hn; [|done].
  destruct (Z.ltb_spec 0 (weight d)); [|done].
  exists p, d. by simplify_eq.
Qed.

Lemma node_dests_nodes_for h l : node_dests (nodes_for h l) `sublist_of` l.
Proof.
  unfold node_dests, nodes_for. induction l as [|p l IH]; simpl; [done|].
  destruct (h !! p) as [d|]; simpl; [|by apply sublist_cons].
  destruct (0 <? weight d); simpl; [by apply sublist_skip|by apply sublist_cons].
Qed.

Lemma dests_mapped_alter f p k m l :
  dests_mapped k l →
  dests_mapped {| kmem := m; dests := alter f p (dests k) |} l.
Proof.
  unfold dests_mapped. intros Hl. eapply Forall_impl; [exact Hl|].
  intros q Hq. simpl.
  destruct (decide (p = q)) as [->|Hne].
  - rewrite lookup_alter_eq. by apply fmap_is_Some.
  - by rewrite lookup_alter_ne.
Qed.

Lemma kmalloc_ok k b m :
  kmalloc (kmem k) = (b, m) → kmem_ok k →
  kmem_ok {| kmem := m; dests := dests k |}.
Proof.
  unfold kmem_ok. simpl. destruct (kmem k) as [|b' m']; simpl.
  - by intros [= _ <-].
  - intros [= _ <-] Hk. by apply Forall_cons in Hk as [_ ?].
Qed.

Lemma kmalloc_failed k m : kmalloc (kmem k) = (false, m) → ¬ kmem_ok k.
Proof.
  unfold kmem_ok. destruct (kmem k) as [|b' m']; simpl; [done|].
  intros [= -> _] Hk. by apply Forall_cons in Hk as [? _].
Qed.

(** One pass of the loop of [ip_vs_ch_assign]: the entries [new] it adds
    are a prefix of those a pass without failure adds, the whole of them
    when it returns 0. *)
Lemma assign_loop_spec l : ∀ tbl k,
  head_links tbl = Linked →
  dests_mapped k l →
  ∃ r tbl' k' new,
    assign_loop l tbl k = Some (r, tbl', k')
    ∧ new `prefix_of` nodes_for (dests k) l
    ∧ node_head tbl' = node_head tbl ++ new
    ∧ conhash tbl' = fold_left conhash_add_node new (conhash tbl)
    ∧ (0 <= count tbl < 2 ^ 32 →
       count tbl' = uint32 (count tbl + Z.of_nat (length new)))
    ∧ dests k' = refs_taken new (dests k)
    ∧ (r = 0 ∧ new = nodes_for (dests k) l ∨ r = - ENOMEM ∧ ¬ kmem_ok k)
    ∧ (kmem_ok k → kmem_ok k').
Proof.
  induction l as [|p l IH]; intros tbl k Hl Hm.
  - exists 0, tbl, k, []. simpl. repeat split; try done.
    + by rewrite app_nil_r.
    + intros Hc. rewrite Z.add_0_r. by rewrite uint32_small.
    + by left.
  - apply Forall_cons in Hm as [[d Hd] Hm]. cbn [assign_loop].
    rewrite Hd. cbn [mbind option_bind].
    destruct (Z.ltb_spec 0 (weight d)) as [Hw|Hw].
    + destruct (kmalloc (kmem k)) as [[] m] eqn:Hk.
      * (* the entry is allocated *)
        rewrite Hl.
        destruct (IH {| count := uint32 (count tbl + 1);
                        conhash := conhash_add_node (conhash tbl) (node_of p d);
                        node_head := node_head tbl ++ [node_of p d];
                        head_links := Linked |}
                     {| kmem := m; dests := alter atomic_inc_refcnt p (dests k) |}
                     eq_refl (dests_mapped_alter _ _ _ _ _ Hm))
          as (r & tbl' & k' & new & Hrun & Hpre & Hnh & Hch & Hcnt & Hds & Hr & Hok).
        exists r, tbl', k', (node_of p d :: new).
        cbn [kmem dests count conhash node_head] in *.
        rewrite (nodes_for_erase _ (dests k)) in Hpre, Hr
          by (apply erase_alter, erase_atomic_inc).
        rewrite (nodes_for_cons_pos _ _ d) by done.
        repeat split; try done.
        -- by apply prefix_cons.
        -- by rewrite Hnh, <- app_assoc.
        -- intros Hc. rewrite Hcnt by (unfold uint32; apply Z.mod_pos_bound; lia).
           rewrite uint32_add_l. f_equal. simpl length. lia.
        -- destruct Hr as [[-> ->]|[-> Hr]]; [by left|].
           right. split; [done|]. intros Hk'. apply Hr.
           apply (kmalloc_ok _ _ _ Hk Hk').
        -- intros Hk'. apply Hok. apply (kmalloc_ok _ _ _ Hk Hk').
      * (* the allocation fails *)
        exists (- ENOMEM), tbl, {| kmem := m; dests := dests k |}, [].
        repeat split; try done.
        -- apply prefix_nil.
        -- by rewrite app_nil_r.
        -- intros Hc. simpl. rewrite Z.add_0_r. by rewrite uint32_small.
        -- right. split; [done|]. by eapply kmalloc_failed.
        -- intros Hk'. by destruct (kmalloc_failed _ _ Hk).
    + destruct (IH tbl k Hl Hm)
        as (r & tbl' & k' & new & Hrun & Hpre & Hnh & Hch & Hcnt & Hds & Hr & Hok).
      exists r, tbl', k', new.
      rewrite (nodes_for_cons_nonpos _ _ d) by done. done.
Qed.

(** The loop leaves the links of the head in order. *)
Lemma assign_loop_links l : ∀ tbl k r tbl' k',
  head_links tbl = Linked →
  assign_loop l tbl k = Some (r, tbl', k') → head_links tbl' = Linked.
Proof.
  induction l as [|p l IH]; intros tbl k r tbl' k' Hl; cbn [assign_loop].
  - by intros [= _ <- _].
  - destruct (dests k !! p) as [d|]; cbn [mbind option_bind]; [|done].
    destruct (0 <? weight d); [|by apply IH].
    destruct (kmalloc (kmem k)) as [[] m].
    + rewrite Hl. by apply IH.
    + by intros [= _ <- _].
Qed.

(** With no destination of positive weight on the list the loop allocates
    nothing and changes nothing. *)
Lemma assign_loop_unweighted l : ∀ tbl k,
  dests_mapped k l →
  (∀ (p : dest_ptr) d, p ∈ l → dests k !! p = Some d → weight d <= 0) →
  assign_loop l tbl k = Some (0, tbl, k).
Proof.
  induction l as [|p l IH]; intros tbl k Hm Hw; [done|].
  apply Forall_cons in Hm as [[d Hd] Hm]. cbn [assign_loop].
  rewrite Hd. cbn [mbind option_bind].
  destruct (Z.ltb_spec 0 (weight d)) as [Hpos|_].
  - specialize (Hw p d (list_elem_of_here _ _) Hd). lia.
  - apply IH; [done|]. intros q dq Hq. apply Hw. by apply list_elem_of_further.
Qed.
End TableFacts.

Section ServiceFacts.
Context {plat : Platform}.

(** The loop of [ip_vs_ch_flush] does not get past its first entry: the
    step to the next one reads the entry just freed. *)
Lemma flush_loop_entries nl l tbl k : flush_loop (nl :: l) tbl k = None.
Proof.
  cbn [flush_loop]. destruct (dest nl) as [p|]; [|done].
  by destruct (dests k !! p).
Qed.

(** [ip_vs_ch_flush] on a table without entries: only [count] and the links
    of the head change. *)
Lemma ip_vs_ch_flush_no_entries tbl k :
  no_entries tbl →
  ip_vs_ch_flush tbl k
  = Some ({| count := 0; conhash := conhash tbl; node_head := [];
             head_links := Poisoned |}, k).
Proof. intros [Hl Hn]. unfold ip_vs_ch_flush. by rewrite Hl, Hn. Qed.

(** [ip_vs_ch_flush] has a result on these tables only. *)
Lemma ip_vs_ch_flush_faults tbl k :
  ¬ no_entries tbl → ip_vs_ch_flush tbl k = None.
Proof.
  intros Hne. unfold ip_vs_ch_flush.
  destruct (head_links tbl) eqn:Hl; try done.
  destruct (node_head tbl) as [|nl l] eqn:Hn; [by destruct Hne|].
  by rewrite flush_loop_entries.
Qed.

Lemma ip_vs_ch_flush_is_Some tbl k :
  is_Some (ip_vs_ch_flush tbl k) ↔ no_entries tbl.
Proof.
  split.
  - intros [x Hx]. destruct (head_links tbl) eqn:Hl;
      unfold ip_vs_ch_flush in Hx; rewrite Hl in Hx; try done.
    destruct (node_head tbl) as [|nl l] eqn:Hn; [done|].
    by rewrite flush_loop_entries in Hx.
  - intros Hne. rewrite ip_vs_ch_flush_no_entries by done. by eexists.
Qed.

Lemma no_entries_entries tbl : node_head tbl ≠ [] → ¬ no_entries tbl.
Proof. by intros Hn [_ ?]. Qed.

Lemma ip_vs_ch_assign_spec tbl svc k :
  dests_mapped k (destinations svc) →
  ∃ r tbl' k',
    ip_vs_ch_assign tbl svc k = Some (r, tbl', k')
    ∧ node_head tbl' `prefix_of` nodes_for (dests k) (destinations svc)
    ∧ conhash tbl' = fold_left conhash_add_node (node_head tbl') (conhash tbl)
    ∧ (count tbl = 0 → count tbl' = uint32 (Z.of_nat (length (node_head tbl'))))
    ∧ dests k' = refs_taken (node_head tbl') (dests k)
    ∧ (r = 0 ∧ node_head tbl' = nodes_for (dests k) (destinations svc)
       ∨ r = - ENOMEM ∧ ¬ kmem_ok k)
    ∧ (kmem_ok k → kmem_ok k').
Proof.
  intros Hm. unfold ip_vs_ch_assign.
  destruct (assign_loop_spec (destinations svc)
              {| count := count tbl; conhash := conhash tbl; node_head := [];
                 head_links := Linked |}
              k eq_refl Hm)
    as (r & tbl' & k' & new & -> & Hpre & Hnh & Hch & Hcnt & Hds & Hr & Hok).
  cbn [count conhash node_head app] in *. subst new.
  exists r, tbl', k'. repeat split; try done.
  intros Hc. rewrite Hcnt by lia. by rewrite Hc.
Qed.

(** [INIT_LIST_HEAD] puts the links of the head in order, whatever they
    were, and the loop keeps them so. *)
Lemma ip_vs_ch_assign_links tbl svc k r tbl' k' :
  ip_vs_ch_assign tbl svc k = Some (r, tbl', k') → head_links tbl' = Linked.
Proof. unfold ip_vs_ch_assign. by apply assign_loop_links. Qed.

Lemma ip_vs_ch_assign_unweighted tbl svc k :
  dests_mapped k (destinations svc) →
  (∀ (p : dest_ptr) d,
     p ∈ destinations svc → dests k !! p = Some d → weight d <= 0) →
  ip_vs_ch_assign tbl svc k
  = Some (0, {| count := count tbl; conhash := conhash tbl; node_head := [];
                head_links := Linked |}, k).
Proof. intros Hm Hw. unfold ip_vs_ch_assign. by apply assign_loop_unweighted. Qed.

Lemma table_of_built h l : tbl_built (table_of h l).
Proof. done. Qed.

(** The owners on a built ring are the entries of [node_head]. *)
Lemma tbl_built_owner tbl v :
  tbl_built tbl → v ∈ conhash tbl → vn_node v ∈ node_head tbl.
Proof.
  unfold tbl_built. intros -> Hv.
  apply add_nodes_elem in Hv as [Hv|(n & i & Hn & _ & ->)]; [|done].
  by apply elem_of_nil in Hv.
Qed.

Lemma tbl_built_mapped k tbl :
  tbl_built tbl → dests_mapped k (node_dests (node_head tbl)) →
  ring_dests_mapped k tbl.
Proof.
  intros Hb Hm v p Hv Hp. unfold dests_mapped in Hm.
  rewrite Forall_forall in Hm. apply Hm.
  unfold node_dests. apply list_elem_of_omap. exists (vn_node v).
  split; [by apply tbl_built_owner|done].
Qed.

Lemma dests_mapped_prefix k h l l' :
  dests_mapped k l → l' `prefix_of` nodes_for h l →
  dests_mapped k (node_dests l').
Proof.
  intros Hm [t Ht]. unfold dests_mapped in *. rewrite Forall_forall in *.
  intros p Hp. apply Hm.
  eapply elem_of_sublist; [|apply (node_dests_nodes_for h l)].
  rewrite Ht. unfold node_dests. rewrite omap_app. apply elem_of_app. by left.
Qed.

Lemma dests_mapped_dom k k' l :
  (∀ p, is_Some (dests k' !! p) ↔ is_Some (dests k !! p)) →
  dests_mapped k l → dests_mapped k' l.
Proof.
  intros Hd Hm. unfold dests_mapped in *.
  eapply Forall_impl; [exact Hm|]. intros p. by rewrite Hd.
Qed.

Lemma node_dests_nodes_for_eq h l : node_dests (nodes_for h l) = weighted h l.
Proof.
  unfold node_dests, nodes_for, weighted.
  induction l as [|p l IH]; [done|]. cbn [omap list_omap List.filter].
  destruct (h !! p) as [d|]; cbn [mbind option_bind]; [|exact IH].
  destruct (0 <? weight d); cbn [omap list_omap dest node_of];
    [by f_equal|exact IH].
Qed.

Lemma nodes_for_length h l :
  length (nodes_for h l) = length (weighted h l).
Proof.
  unfold nodes_for, weighted.
  induction l as [|p l IH]; [done|]. cbn [omap list_omap List.filter].
  destruct (h !! p) as [d|]; cbn [mbind option_bind]; [|exact IH].
  destruct (0 <? weight d); cbn [length]; [by f_equal|exact IH].
Qed.

Lemma refs_taken_mapped l h (p : dest_ptr) :
  is_Some (refs_taken l h !! p) ↔ is_Some (h !! p).
Proof. apply is_Some_alter_list. Qed.


(** [ip_vs_ch_init_svc] once the table itself has been allocated. *)
Lemma ip_vs_ch_init_svc_spec svc k m :
  kmalloc (kmem k) = (true, m) →
  dests_mapped k (destinations svc) →
  ∃ tbl' k',
    ip_vs_ch_init_svc svc k = Some (0, set_sched_data svc (Some tbl'), k')
    ∧ tbl_built tbl'
    ∧ node_head tbl' `prefix_of` nodes_for (dests k) (destinations svc)
    ∧ count tbl' = uint32 (Z.of_nat (length (node_head tbl')))
    ∧ dests k' = refs_taken (node_head tbl') (dests k)
    ∧ (kmem_ok k → node_head tbl' = nodes_for (dests k) (destinations svc)
                   ∧ kmem_ok k').
Proof.
  intros Hk Hm. unfold ip_vs_ch_init_svc. rewrite Hk.
  destruct (ip_vs_ch_assign_spec
              {| count := 0; conhash := conhash_init; node_head := [];
                 head_links := Uninitialised |} svc
              {| kmem := m; dests := dests k |})
    as (r & tbl' & k' & -> & Hpre & Hch & Hcnt & Hds & Hr & Hok); [done|].
  exists tbl', k'. cbn [mbind option_bind].
  split; [done|]. split; [done|]. split; [done|].
  split; [by apply Hcnt|]. split; [done|].
  intros Hk'. pose proof (kmalloc_ok _ _ _ Hk Hk') as Hm'. split.
  - destruct Hr as [[_ ?]|[_ Hr]]; [done|]. by destruct Hr.
  - by apply Hok.
Qed.

Lemma ip_vs_ch_init_svc_nomem svc k m :
  kmalloc (kmem k) = (false, m) →
  ip_vs_ch_init_svc svc k = Some (- ENOMEM, svc, {| kmem := m; dests := dests k |}).
Proof. intros Hk. unfold ip_vs_ch_init_svc. by rewrite Hk. Qed.

(** The only error [ip_vs_ch_init_svc] reports is the failed allocation of
    the table; [ip_vs_ch_update_svc] reports none. *)
Lemma ip_vs_ch_init_svc_ret svc k r svc' k' :
  ip_vs_ch_init_svc svc k = Some (r, svc', k') →
  r = 0 ∨ (r = - ENOMEM ∧ fst (kmalloc (kmem k)) = false ∧ svc' = svc).
Proof.
  unfold ip_vs_ch_init_svc. destruct (kmalloc (kmem k)) as [[] m].
  - destruct (ip_vs_ch_assign _ _ _) as [[[? ?] ?]|]; simpl; [|done].
    intros [= <- _ _]. by left.
  - intros [= <- <- _]. by right.
Qed.

Lemma ip_vs_ch_update_svc_ret svc k r svc' k' :
  ip_vs_ch_update_svc svc k = Some (r, svc', k') → r = 0.
Proof.
  unfold ip_vs_ch_update_svc. destruct (sched_data svc) as [tbl|]; [|done].
  simpl. destruct (ip_vs_ch_flush tbl k) as [[tbl1 k1]|]; [|done].
  simpl. destruct (ip_vs_ch_assign _ _ _) as [[[? ?] ?]|]; simpl; [|done].
  by intros [= <- _ _].
Qed.

(** The table [ip_vs_ch_init_svc] leaves has the links of its head in
    order. *)
Lemma ip_vs_ch_init_svc_links svc k svc' k' :
  ip_vs_ch_init_svc svc k = Some (0, svc', k') →
  ∃ tbl', sched_data svc' = Some tbl' ∧ head_links tbl' = Linked.
Proof.
  unfold ip_vs_ch_init_svc. destruct (kmalloc (kmem k)) as [[] m].
  - destruct (ip_vs_ch_assign _ _ _) as [[[r tbl'] k2]|] eqn:Ha; simpl; [|done].
    intros [= <- _]. exists tbl'. split; [done|].
    by eapply ip_vs_ch_assign_links.
  - intros H. discriminate H.
Qed.

(** [ip_vs_ch_update_svc] and [ip_vs_ch_done_svc] start with
    [ip_vs_ch_flush]: on a table that holds an entry, or whose head is not
    in order, they have no result. *)
Lemma ip_vs_ch_update_svc_faults svc tbl k :
  sched_data svc = Some tbl → ¬ no_entries tbl →
  ip_vs_ch_update_svc svc k = None.
Proof.
  intros Hsd Hne. unfold ip_vs_ch_update_svc. rewrite Hsd.
  cbn [mbind option_bind]. by rewrite ip_vs_ch_flush_faults.
Qed.

Lemma ip_vs_ch_done_svc_faults svc tbl k :
  sched_data svc = Some tbl → ¬ no_entries tbl →
  ip_vs_ch_done_svc svc k = None.
Proof.
  intros Hsd Hne. unfold ip_vs_ch_done_svc. rewrite Hsd.
  cbn [mbind option_bind]. by rewrite ip_vs_ch_flush_faults.
Qed.

(** [ip_vs_ch_done_svc] on a table without entries. *)
Lemma ip_vs_ch_done_svc_spec svc tbl k :
  sched_data svc = Some tbl → no_entries tbl →
  ip_vs_ch_done_svc svc k = Some (0, set_sched_data svc None, k).
Proof.
  intros Hsd Hne. unfold ip_vs_ch_done_svc. rewrite Hsd.
  cbn [mbind option_bind]. by rewrite ip_vs_ch_flush_no_entries.
Qed.

(** [ip_vs_ch_update_svc] on a table without entries: the flush finds
    nothing to visit and [ip_vs_ch_assign] builds on the ring as it is. *)
Lemma ip_vs_ch_update_svc_spec svc tbl k :
  sched_data svc = Some tbl →
  no_entries tbl →
  dests_mapped k (destinations svc) →
  ∃ tbl' k',
    ip_vs_ch_update_svc svc k = Some (0, set_sched_data svc (Some tbl'), k')
    ∧ conhash tbl' = fold_left conhash_add_node (node_head tbl') (conhash tbl)
    ∧ node_head tbl' `prefix_of` nodes_for (dests k) (destinations svc)
    ∧ count tbl' = uint32 (Z.of_nat (length (node_head tbl')))
    ∧ dests k' = refs_taken (node_head tbl') (dests k)
    ∧ head_links tbl' = Linked
    ∧ (kmem_ok k → node_head tbl' = nodes_for (dests k) (destinations svc)
                   ∧ kmem_ok k').
Proof.
  intros Hsd Hne Hm. unfold ip_vs_ch_update_svc. rewrite Hsd.
  cbn [mbind option_bind]. rewrite ip_vs_ch_flush_no_entries by done.
  cbn [mbind option_bind].
  destruct (ip_vs_ch_assign_spec
              {| count := 0; conhash := conhash tbl; node_head := [];
                 head_links := Poisoned |} svc k Hm)
    as (r & tbl' & k' & Hrun & Hpre & Hch & Hcnt & Hds & Hr & Hok).
  rewrite Hrun. exists tbl', k'. cbn [mbind option_bind].
  split; [done|]. split; [done|]. split; [done|].
  split; [by apply Hcnt|]. split; [done|].
  split; [by eapply ip_vs_ch_assign_links|].
  intros Hk. split; [|by apply Hok].
  destruct Hr as [[_ ?]|[_ Hr]]; [done|]. by destruct Hr.
Qed.

(** [ip_vs_ch_update_svc] has a result on these tables only. *)
Lemma ip_vs_ch_update_svc_is_Some svc tbl k :
  sched_data svc = Some tbl →
  dests_mapped k (destinations svc) →
  is_Some (ip_vs_ch_update_svc svc k) ↔ no_entries tbl.
Proof.
  intros Hsd Hm. split.
  - intros [x Hx]. apply (ip_vs_ch_flush_is_Some tbl k).
    unfold ip_vs_ch_update_svc in Hx. rewrite Hsd in Hx.
    cbn [mbind option_bind] in Hx.
    destruct (ip_vs_ch_flush tbl k); [by eexists|done].
  - intros Hne.
    destruct (ip_vs_ch_update_svc_spec svc tbl k Hsd Hne Hm)
      as (tbl' & k' & -> & _). by eexists.
Qed.

Lemma ip_vs_ch_done_svc_is_Some svc tbl k :
  sched_data svc = Some tbl →
  is_Some (ip_vs_ch_done_svc svc k) ↔ no_entries tbl.
Proof.
  intros Hsd. split.
  - intros [x Hx]. apply (ip_vs_ch_flush_is_Some tbl k).
    unfold ip_vs_ch_done_svc in Hx. rewrite Hsd in Hx.
    cbn [mbind option_bind] in Hx.
    destruct (ip_vs_ch_flush tbl k); [by eexists|done].
  - intros Hne. rewrite (ip_vs_ch_done_svc_spec svc tbl k) by done.
    by eexists.
Qed.

(** A built table without entries has an empty ring. *)
Lemma tbl_built_no_entries tbl :
  tbl_built tbl → no_entries tbl → conhash tbl = conhash_init.
Proof. intros Hb [_ Hn]. unfold tbl_built in Hb. by rewrite Hn in Hb. Qed.


(** A built ring is sorted by hash value. *)
Lemma tbl_built_sorted tbl : tbl_built tbl → hash_sorted (conhash tbl).
Proof. intros ->. apply add_nodes_sorted. constructor. Qed.

(** [svc_ok] holds after a successful [ip_vs_ch_init_svc]. *)
Lemma ip_vs_ch_init_svc_ok svc k svc' k' :
  dests_mapped k (destinations svc) →
  ip_vs_ch_init_svc svc k = Some (0, svc', k') →
  svc_ok k' svc'.
Proof.
  intros Hm Hrun. destruct (kmalloc (kmem k)) as [[] m] eqn:Ha.
  - destruct (ip_vs_ch_init_svc_spec svc k m Ha Hm)
      as (tbl' & k2 & Hrun' & Hb & Hpre & _ & Hds & _).
    rewrite Hrun in Hrun'. injection Hrun' as -> ->.
    assert (Hdom : ∀ p : dest_ptr,
              is_Some (dests k2 !! p) ↔ is_Some (dests k !! p))
      by (intros p; rewrite Hds; apply refs_taken_mapped).
    exists tbl'. split; [done|]. split; [done|]. split.
    + by apply (dests_mapped_dom k).
    + apply (dests_mapped_dom k); [done|].
      eapply dests_mapped_prefix; [exact Hm|exact Hpre].
  - rewrite (ip_vs_ch_init_svc_nomem _ _ _ Ha) in Hrun.
    injection Hrun as Hr _ _. unfold ENOMEM in Hr. lia.
Qed.

Lemma prefix_elem {A} (l1 l2 : list A) x : l1 `prefix_of` l2 → x ∈ l1 → x ∈ l2.
Proof. intros [t ->] Hx. apply elem_of_app. by left. Qed.


(** [ip_vs_ch_update_svc] on a built table without entries when no
    allocation fails. *)
Lemma ip_vs_ch_update_svc_ok svc tbl k :
  sched_data svc = Some tbl → tbl_built tbl → no_entries tbl →
  dests_mapped k (destinations svc) →
  kmem_ok k →
  ∃ k',
    ip_vs_ch_update_svc svc k
      = Some (0, set_sched_data svc
                   (Some (table_of (dests k) (destinations svc))), k')
    ∧ kmem_ok k'
    ∧ dests k' = refs_taken (nodes_for (dests k) (destinations svc)) (dests k).
Proof.
  intros Hsd Hb Hne Hm Hk.
  destruct (ip_vs_ch_update_svc_spec svc tbl k Hsd Hne Hm)
    as (tbl' & k' & Hrun & Hch & _ & Hc & Hds & Hl & Hok).
  destruct (Hok Hk) as [Hnh Hk'].
  rewrite (tbl_built_no_entries tbl), Hnh in Hch by done.
  rewrite Hnh in Hc, Hds.
  assert (tbl' = table_of (dests k) (destinations svc)) as ->.
  { destruct tbl'. unfold table_of. simpl in *. by subst. }
  by exists k'.
Qed.

Lemma refcnt_at_alter_list (f : ip_vs_dest → ip_vs_dest) (g : Z → Z) l m m' h
    (p : dest_ptr) :
  (∀ d, refcnt (f d) = g (refcnt d)) →
  NoDup l →
  refcnt_at {| kmem := m'; dests := fold_left (λ h q, alter f q h) l h |} p =
    if decide (p ∈ l) then g <$> refcnt_at {| kmem := m; dests := h |} p
    else refcnt_at {| kmem := m; dests := h |} p.
Proof.
  intros Hf Hl. unfold refcnt_at. simpl. rewrite lookup_alter_list by done.
  destruct (decide (p ∈ l)); [|done].
  destruct (h !! p) as [d|]; simpl; [|done]. by rewrite Hf.
Qed.

Lemma node_dests_prefix l1 l2 :
  l1 `prefix_of` l2 → node_dests l1 `prefix_of` node_dests l2.
Proof.
  intros [t ->]. unfold node_dests. rewrite omap_app. by eexists.
Qed.

Lemma prefix_NoDup {A} (l1 l2 : list A) : l1 `prefix_of` l2 → NoDup l2 → NoDup l1.
Proof. intros [t ->] Hl. by apply NoDup_app in Hl as [? _]. Qed.

Lemma weighted_NoDup h l : NoDup l → NoDup (weighted h l).
Proof.
  intros Hl. rewrite <- node_dests_nodes_for_eq.
  eapply sublist_NoDup; [exact Hl|apply node_dests_nodes_for].
Qed.
End ServiceFacts.

(** ** The scheduling loop *)

Section ScheduleFacts.
Context {plat : Platform}.

Lemma ip_vs_ch_get_candidate af tbl a i :
  ip_vs_ch_get af tbl a (uint16 i) = candidate tbl a i.
Proof.
  unfold ip_vs_ch_get, candidate, lookup_key.
  by destruct (conhash_lookup _ _).
Qed.

Lemma candidate_mapped k tbl a i p :
  ring_dests_mapped k tbl → candidate tbl a i = Some p → is_Some (dests k !! p).
Proof.
  unfold candidate, conhash_lookup. intros Hm Hc.
  destruct (lookupSuccessor _ _) as [v|] eqn:E; simpl in Hc; [|done].
  eapply Hm; eauto using lookupSuccessor_elem.
Qed.

Lemma skipped_true d :
  skipped d = true ↔
  Z.land (flags d) IP_VS_DEST_F_AVAILABLE = 0
  ∨ Z.land (flags d) IP_VS_DEST_F_OVERLOAD ≠ 0
  ∨ weight d <= 0.
Proof.
  unfold skipped, is_overloaded.
  rewrite !orb_true_iff, negb_true_iff, Z.eqb_eq, Z.eqb_neq, Z.leb_le.
  tauto.
Qed.

Lemma skipped_false d :
  skipped d = false ↔
  Z.land (flags d) IP_VS_DEST_F_AVAILABLE ≠ 0
  ∧ Z.land (flags d) IP_VS_DEST_F_OVERLOAD = 0
  ∧ 0 < weight d.
Proof.
  unfold skipped, is_overloaded.
  rewrite !orb_false_iff, negb_false_iff, Z.eqb_eq, Z.eqb_neq, Z.leb_gt.
  tauto.
Qed.

Lemma accepted_not_rejected k p : accepted k p → ¬ rejected k (Some p).
Proof.
  intros (d & Hd & Ha & Ho & Hw) (d' & Hd' & Hr).
  assert (d' = d) as -> by congruence. lia.
Qed.

(** The loop, started at index [i] with [n] attempts left. *)
Lemma schedule_loop_spec k af tbl a n : ∀ i,
  ring_dests_mapped k tbl →
  ∃ r, schedule_loop n i af tbl a k = Some r ∧
    match r with
    | Some p =>
        ∃ j, i <= j < i + Z.of_nat n ∧ candidate tbl a j = Some p
             ∧ accepted k p
             ∧ ∀ j', i <= j' < j → rejected k (candidate tbl a j')
    | None => ∀ j, i <= j < i + Z.of_nat n → rejected k (candidate tbl a j)
    end.
Proof.
  induction n as [|n IH]; intros i Hm.
  - exists None. split; [done|]. intros j Hj. lia.
  - cbn [schedule_loop]. rewrite ip_vs_ch_get_candidate.
    destruct (IH (i + 1) Hm) as (r & Hr & Hspec).
    assert (Hrest : rejected k (candidate tbl a i) →
      match r with
      | Some p =>
          ∃ j, i <= j < i + Z.of_nat (S n) ∧ candidate tbl a j = Some p
               ∧ accepted k p
               ∧ ∀ j', i <= j' < j → rejected k (candidate tbl a j')
      | None => ∀ j, i <= j < i + Z.of_nat (S n) → rejected k (candidate tbl a j)
      end).
    { intros Hi. destruct r as [p|].
      - destruct Hspec as (j & Hj & Hc & Ha & Hbefore).
        exists j. repeat split; [lia|lia|done|done|].
        intros j' Hj'. destruct (decide (j' = i)) as [->|]; [done|].
        apply Hbefore. lia.
      - intros j Hj. destruct (decide (j = i)) as [->|]; [done|].
        apply Hspec. lia. }
    destruct (candidate tbl a i) as [p|] eqn:Hc.
    + destruct (candidate_mapped _ _ _ _ _ Hm Hc) as [d Hd].
      rewrite Hd. simpl. destruct (skipped d) eqn:Hs.
      * exists r. split; [done|]. apply Hrest.
        exists d. split; [done|]. by apply skipped_true.
      * exists (Some p). split; [done|].
        exists i. repeat split; [lia|lia|done| |intros; lia].
        exists d. split; [done|]. by apply skipped_false.
    + exists r. split; [done|]. by apply Hrest.
Qed.

(** The loop reads the table through [count] and [conhash], the source
    address through its [ip] word, and the store through the flags and
    weights. *)
Lemma schedule_loop_ext n : ∀ i af1 af2 tbl1 tbl2 a1 a2 k1 k2,
  conhash tbl1 = conhash tbl2 → ip a1 = ip a2 → same_view k1 k2 →
  schedule_loop n i af1 tbl1 a1 k1 = schedule_loop n i af2 tbl2 a2 k2.
Proof.
  induction n as [|n IH]; intros i af1 af2 tbl1 tbl2 a1 a2 k1 k2 Hc Ha Hv; [done|].
  cbn [schedule_loop]. rewrite !ip_vs_ch_get_candidate.
  unfold candidate. rewrite Hc, Ha.
  destruct (conhash_lookup _ _ ≫= dest) as [p|]; [|by apply IH].
  pose proof (Hv p) as Hp.
  destruct (dests k1 !! p) as [d1|], (dests k2 !! p) as [d2|];
    simpl in Hp |- *; try done.
  assert (Hs : skipped d1 = skipped d2).
  { unfold sched_view in Hp. injection Hp as Hf Hw.
    unfold skipped, is_overloaded. by rewrite Hf, Hw. }
  rewrite Hs. destruct (skipped d2); [by apply IH|done].
Qed.

Lemma ip_vs_ch_schedule_ext svc1 svc2 tbl1 tbl2 skb1 skb2 k1 k2 :
  sched_data svc1 = Some tbl1 → sched_data svc2 = Some tbl2 →
  conhash tbl1 = conhash tbl2 → count tbl1 = count tbl2 →
  ip (nh_saddr skb1) = ip (nh_saddr skb2) → same_view k1 k2 →
  fst <$> ip_vs_ch_schedule svc1 skb1 k1 = fst <$> ip_vs_ch_schedule svc2 skb2 k2.
Proof.
  intros Hs1 Hs2 Hc Hn Ha Hv. unfold ip_vs_ch_schedule.
  rewrite Hs1, Hs2. cbn [mbind option_bind ip_vs_fill_iphdr saddr].
  rewrite Hn.
  rewrite (schedule_loop_ext _ 0 (af svc1) (af svc2) tbl1 tbl2 _ _ k1 k2 Hc Ha Hv).
  by destruct (schedule_loop _ _ _ _ _ _).
Qed.

Lemma ip_vs_ch_schedule_pure svc skb k r k' :
  ip_vs_ch_schedule svc skb k = Some (r, k') → k' = k.
Proof.
  unfold ip_vs_ch_schedule. destruct (sched_data svc) as [tbl|]; [|done].
  cbn [mbind option_bind]. destruct (schedule_loop _ _ _ _ _ _); [|done].
  cbn [mbind option_bind]. by intros [= _ <-].
Qed.
End ScheduleFacts.

(** ** The sample scenario *)

Lemma one_dest_bound_ok m : svc_ok (plat := sample_platform) (one_dest m) one_dest_bound.
Proof.
  exists one_dest_tbl. split; [done|]. split; [apply table_of_built|].
  split; apply (bool_decide_unpack _); by vm_compute.
Qed.

Lemma two_dest_bound_ok m : svc_ok (plat := sample_platform) (two_dests m) two_dest_bound.
Proof.
  exists two_dest_tbl. split; [done|]. split; [apply table_of_built|].
  split; apply (bool_decide_unpack _); by vm_compute.
Qed.

Lemma empty_tbl_no_entries : no_entries empty_tbl.
Proof. by split. Qed.

Lemma one_dest_tbl_entries : node_head one_dest_tbl ≠ [].
Proof. intros H. vm_compute in H. discriminate H. Qed.

Lemma two_dest_tbl_entries : node_head two_dest_tbl ≠ [].
Proof. intros H. vm_compute in H. discriminate H. Qed.

(** The key of the fourth attempt for a packet from 10.0.0.1. *)
Example lookup_key_10_0_0_1 :
  lookup_key (plat := sample_platform) (ipv4 0x0100000a) 3 = "167772161:3".
Proof. reflexivity. Qed.

(** Where the packets from the sources 1 .. 8 go, with both destinations
    healthy and with 10.0.0.2 overloaded: the loop makes [count] = 2
    attempts, and returns NULL when both land on the overloaded
    destination. *)
Example schedule_two_dests :
  map (λ x, fst <$> ip_vs_ch_schedule (plat := sample_platform) two_dest_bound
                      (packet_from x) (two_dests []))
      [1; 2; 3; 4; 5; 6; 7; 8]
  = map (λ r, Some (Some r))
        [2; 2; 2; 2; 2; 1; 2; 2]%positive.
Proof. vm_compute. reflexivity. Qed.

Example schedule_two_dests_overloaded :
  map (λ x, fst <$> ip_vs_ch_schedule (plat := sample_platform) two_dest_bound
                      (packet_from x) (two_dests_overloaded []))
      [1; 2; 3; 4; 5; 6; 7; 8]
  = map Some [None; None; None; None; None; Some 1%positive; None; None].
Proof. vm_compute. reflexivity. Qed.

(** * The claims *)

(** C1.  On a service with a table, [ip_vs_ch_schedule] probes the ring with
    the keys "<source ip>:<i>" for i = 0, 1, ... below [count]; it passes
    over a candidate that is missing, not AVAILABLE, overloaded or of
    weight <= 0 and returns the first other one; it returns NULL exactly
    when every attempt below [count] was passed over.  What it returns is
    available, not overloaded and of positive weight. *)
Theorem ip_vs_ch_schedule_first_acceptable {plat : Platform} svc tbl skb k :
  sched_data svc = Some tbl →
  ring_dests_mapped k tbl →
  ∃ r,
    ip_vs_ch_schedule svc skb k = Some (r, k)
    ∧ (∀ i, ip_vs_ch_get (af svc) tbl (nh_saddr skb) (uint16 i)
            = candidate tbl (nh_saddr skb) i)
    ∧ (∀ p, r = Some p →
         accepted k p
         ∧ ∃ i, 0 <= i < count tbl
                ∧ candidate tbl (nh_saddr skb) i = Some p
                ∧ ∀ j, 0 <= j < i → rejected k (candidate tbl (nh_saddr skb) j))
    ∧ (r = None ↔
       ∀ i, 0 <= i < count tbl → rejected k (candidate tbl (nh_saddr skb) i)).
Proof.
  intros Hsd Hm. unfold ip_vs_ch_schedule. rewrite Hsd.
  cbn [mbind option_bind ip_vs_fill_iphdr saddr].
  destruct (schedule_loop_spec k (af svc) tbl (nh_saddr skb)
              (Z.to_nat (count tbl)) 0 Hm) as (r & -> & Hspec).
  exists r. cbn [mbind option_bind].
  split; [done|]. split; [intros i; apply ip_vs_ch_get_candidate|].
  destruct r as [p|].
  - destruct Hspec as (j & Hj & Hc & Ha & Hbefore). split.
    + intros ? [= <-]. split; [done|]. exists j. split; [lia|]. split; [done|].
      intros j' Hj'. apply Hbefore. lia.
    + split; [done|]. intros Hall.
      destruct (accepted_not_rejected _ _ Ha). rewrite <- Hc. apply Hall. lia.
  - split; [done|]. split; [|done]. intros _ i Hi. apply Hspec. lia.
Qed.

Lemma ip_vs_ch_schedule_first_acceptable_witness :
  sched_data one_dest_bound = Some one_dest_tbl
  ∧ ring_dests_mapped (one_dest []) one_dest_tbl
  ∧ ∃ r, ip_vs_ch_schedule (plat := sample_platform) one_dest_bound (packet_from 7)
           (one_dest []) = Some (r, one_dest []).
Proof.
  assert (Hm : ring_dests_mapped (one_dest []) one_dest_tbl).
  { destruct (one_dest_bound_ok []) as (t & [= <-] & Hb & _ & Hn).
    by apply (tbl_built_mapped (plat := sample_platform)). }
  split; [reflexivity|]. split; [exact Hm|].
  destruct (ip_vs_ch_schedule_first_acceptable (plat := sample_platform)
              one_dest_bound one_dest_tbl (packet_from 7) (one_dest [])
              eq_refl Hm) as (r & Hr & _).
  by exists r.
Defined.

(** C2, amended.  After [ip_vs_ch_init_svc], and after
    [ip_vs_ch_update_svc] on a table without entries (the tables on which
    the update has a result), in which no allocation fails, [count] is the
    number of node entries of the table, one per destination of positive
    weight (as an unsigned 32-bit value), not the number of virtual nodes
    on the ring. *)
Theorem count_is_number_of_weighted_dests {plat : Platform} svc k :
  dests_mapped k (destinations svc) →
  kmem_ok k →
  (∃ tbl' k',
     ip_vs_ch_init_svc svc k = Some (0, set_sched_data svc (Some tbl'), k')
     ∧ node_dests (node_head tbl') = weighted (dests k) (destinations svc)
     ∧ count tbl' =
         uint32 (Z.of_nat (length (weighted (dests k) (destinations svc)))))
  ∧ (∀ tbl,
       sched_data svc = Some tbl → no_entries tbl →
       ∃ tbl' k',
         ip_vs_ch_update_svc svc k = Some (0, set_sched_data svc (Some tbl'), k')
         ∧ node_dests (node_head tbl') = weighted (dests k) (destinations svc)
         ∧ count tbl' =
             uint32 (Z.of_nat (length (weighted (dests k) (destinations svc))))).
Proof.
  intros Hm Hk. split.
  - destruct (kmalloc (kmem k)) as [[] m] eqn:Ha.
    + destruct (ip_vs_ch_init_svc_spec svc k m Ha Hm)
        as (tbl' & k' & Hrun & _ & _ & Hc & _ & Hok).
      destruct (Hok Hk) as [Hnh _]. exists tbl', k'.
      split; [done|]. rewrite Hc, Hnh, node_dests_nodes_for_eq, nodes_for_length.
      done.
    + by destruct (kmalloc_failed _ _ Ha).
  - intros tbl Hsd Hne.
    destruct (ip_vs_ch_update_svc_spec svc tbl k Hsd Hne Hm)
      as (tbl' & k' & Hrun & _ & _ & Hc & _ & _ & Hok).
    destruct (Hok Hk) as [Hnh _]. exists tbl', k'.
    split; [done|]. rewrite Hc, Hnh, node_dests_nodes_for_eq, nodes_for_length.
    done.
Qed.

Lemma count_is_number_of_weighted_dests_witness :
  dests_mapped (two_dests []) (destinations two_dest_unbuilt)
  ∧ kmem_ok (two_dests [])
  ∧ sched_data two_dest_unbuilt = Some empty_tbl
  ∧ no_entries empty_tbl
  ∧ (∃ tbl' k',
       ip_vs_ch_init_svc (plat := sample_platform) two_dest_unbuilt (two_dests [])
         = Some (0, set_sched_data two_dest_unbuilt (Some tbl'), k')
       ∧ count tbl' = 2)
  ∧ (∃ tbl' k',
       ip_vs_ch_update_svc (plat := sample_platform) two_dest_unbuilt (two_dests [])
         = Some (0, set_sched_data two_dest_unbuilt (Some tbl'), k')
       ∧ count tbl' = 2).
Proof.
  assert (H1 : dests_mapped (two_dests []) (destinations two_dest_unbuilt))
    by (apply (bool_decide_unpack _); by vm_compute).
  assert (H2 : kmem_ok (two_dests [])) by constructor.
  destruct (count_is_number_of_weighted_dests (plat := sample_platform)
              two_dest_unbuilt (two_dests []) H1 H2)
    as [(t1 & k1 & Hi & _ & Hc1) Hupd].
  destruct (Hupd empty_tbl eq_refl empty_tbl_no_entries)
    as (t2 & k2 & Hu & _ & Hc2).
  split; [exact H1|]. split; [exact H2|]. split; [reflexivity|].
  split; [exact empty_tbl_no_entries|]. split.
  - exists t1, k1. split; [exact Hi|]. rewrite Hc1. reflexivity.
  - exists t2, k2. split; [exact Hu|]. rewrite Hc2. reflexivity.
Defined.

(** C2, counterexample.  With two destinations of weights 1 and 3 the ring
    holds 4 x 160 = 640 virtual nodes and [count] is 2. *)
Lemma two_dests_count_is_2 :
  (λ '(r, svc', _),
     (r, (λ t, (count t, length (conhash t))) <$> sched_data svc'))
    <$> ip_vs_ch_init_svc (plat := sample_platform) two_dest_svc (two_dests [])
  = Some (0, Some (2, 640%nat))
  ∧ vnode_total (dests (two_dests [])) (destinations two_dest_svc) = 640
  ∧ 2 ≠ 640.
Proof. split; [vm_compute; reflexivity|]. split; [reflexivity|lia]. Qed.

(** C3.  An allocation failure for a node entry leaves the return value of
    [ip_vs_ch_init_svc] and of [ip_vs_ch_update_svc] at 0: with one
    destination of weight 1 and no memory for its entry, the init reports
    success and leaves a table without entries, and so does an update of
    the service as that init left it. *)
Lemma init_and_update_report_success_without_memory :
  ip_vs_ch_init_svc (plat := sample_platform) one_dest_svc (one_dest [true; false])
    = Some (0,
            set_sched_data one_dest_svc
              (Some {| count := 0; conhash := []; node_head := [];
                       head_links := Linked |}),
            one_dest [])
  ∧ (λ '(r, svc', k'), (r, sched_data svc', kmem k'))
      <$> ip_vs_ch_update_svc (plat := sample_platform)
            (set_sched_data one_dest_svc
               (Some {| count := 0; conhash := []; node_head := [];
                        head_links := Linked |}))
            (one_dest [false])
    = Some (0, Some {| count := 0; conhash := []; node_head := [];
                       head_links := Linked |}, []).
Proof. split; vm_compute; reflexivity. Qed.

(** C4, amended.  The identity string of a destination's node is the decimal
    form of the [ip] word of its address taken in host order, so two
    destinations get the same string exactly when their [ip] words agree on
    32 bits, whatever their ports and the rest of their addresses; each
    virtual node is named after that string and the replica index. *)
Theorem dest_iden_depends_on_ip_only {plat : Platform} (p : dest_ptr) d1 d2 i :
  (dest_iden d1 = dest_iden d2 ↔ uint32 (ip (addr d1)) = uint32 (ip (addr d2)))
  ∧ iden (node_of p d1) = fmt_u (ntohl (ip (addr d1)))
  ∧ vn_iden (replica (node_of p d1) i)
    = replica_iden (fmt_u (ntohl (ip (addr d1)))) i.
Proof.
  split; [|done]. unfold dest_iden, ntohl. destruct big_endian.
  - split.
    + intros E. apply fmt_u_inj in E; [done| |];
        unfold uint32; apply Z.mod_pos_bound; lia.
    + by intros ->.
  - split.
    + intros E. apply swab32_inj. apply fmt_u_inj in E; [done| |];
        apply swab32_range.
    + intros E. apply swab32_inj in E. by rewrite E.
Qed.

(** C4, counterexample.  10.0.0.1:80 and 10.0.0.1:8080 are two destinations
    with one identity string, hence with the same names for all their
    virtual nodes. *)
Lemma dests_differing_in_port_collide :
  D1 ≠ D1'
  ∧ addr D1 = addr D1'
  ∧ port D1 ≠ port D1'
  ∧ (∀ (plat : Platform) i,
       dest_iden D1 = dest_iden D1'
       ∧ replica_iden (dest_iden D1) i = replica_iden (dest_iden D1') i)
  ∧ (λ '(_, svc', _), (λ t, iden <$> node_head t) <$> sched_data svc')
      <$> ip_vs_ch_init_svc (plat := sample_platform) two_dest_svc
            (same_ip_dests [])
    = Some (Some ["167772161"; "167772161"]).
Proof.
  split; [done|]. split; [done|]. split; [done|]. split; [done|].
  vm_compute. reflexivity.
Qed.



(** C6.  The result of [ip_vs_ch_schedule] is fixed by the table, the flags
    and weights of the destinations and the source address: two calls that
    agree on these return the same destination or both NULL.  A call leaves
    the kernel state as it found it, so a repeated call returns what the
    first returned. *)
Theorem ip_vs_ch_schedule_deterministic {plat : Platform}
    svc1 svc2 tbl skb1 skb2 k1 k2 :
  sched_data svc1 = Some tbl →
  sched_data svc2 = Some tbl →
  same_view k1 k2 →
  nh_saddr skb1 = nh_saddr skb2 →
  fst <$> ip_vs_ch_schedule svc1 skb1 k1 = fst <$> ip_vs_ch_schedule svc2 skb2 k2
  ∧ ∀ r k', ip_vs_ch_schedule svc1 skb1 k1 = Some (r, k') →
            k' = k1 ∧ ip_vs_ch_schedule svc1 skb1 k' = Some (r, k').
Proof.
  intros Hs1 Hs2 Hv Ha. split.
  - apply (ip_vs_ch_schedule_ext _ _ tbl tbl); try done. by rewrite Ha.
  - intros r k' Hrun. pose proof (ip_vs_ch_schedule_pure _ _ _ _ _ Hrun) as ->.
    done.
Qed.

Lemma ip_vs_ch_schedule_deterministic_witness :
  sched_data one_dest_bound = Some one_dest_tbl
  ∧ same_view (one_dest [])
      {| kmem := [false];
         dests := alter atomic_inc_refcnt 1%positive (dests (one_dest [])) |}
  ∧ nh_saddr (packet_from 7) = nh_saddr (packet_from 7)
  ∧ fst <$> ip_vs_ch_schedule (plat := sample_platform) one_dest_bound
              (packet_from 7) (one_dest [])
    = fst <$> ip_vs_ch_schedule (plat := sample_platform) one_dest_bound
                (packet_from 7)
                {| kmem := [false];
                   dests := alter atomic_inc_refcnt 1%positive
                              (dests (one_dest [])) |}.
Proof.
  assert (Hv : same_view (one_dest [])
                 {| kmem := [false];
                    dests := alter atomic_inc_refcnt 1%positive
                               (dests (one_dest [])) |}).
  { apply same_view_erase. simpl. symmetry. apply erase_alter, erase_atomic_inc. }
  split; [reflexivity|]. split; [exact Hv|]. split; [reflexivity|].
  apply (ip_vs_ch_schedule_deterministic (plat := sample_platform)
           one_dest_bound one_dest_bound one_dest_tbl
           (packet_from 7) (packet_from 7) _ _ eq_refl eq_refl Hv eq_refl).
Defined.

(** C7.  [ip_vs_ch_update_svc] on a service whose list is empty or holds
    only destinations of weight <= 0 is not safe to call: when the table
    holds an entry, [ip_vs_ch_flush] frees it and then reads its link, and
    the update has no result.  Only on a table without entries does the
    update return 0, leaving no entries and [count] 0, after which
    [ip_vs_ch_schedule] returns NULL for every packet. *)
Theorem update_without_weighted_dests {plat : Platform} svc tbl k :
  sched_data svc = Some tbl →
  dests_mapped k (destinations svc) →
  (∀ (p : dest_ptr) d,
     p ∈ destinations svc → dests k !! p = Some d → weight d <= 0) →
  (node_head tbl ≠ [] → ip_vs_ch_update_svc svc k = None)
  ∧ (no_entries tbl →
     ip_vs_ch_update_svc svc k
     = Some (0,
             set_sched_data svc
               (Some {| count := 0; conhash := conhash tbl; node_head := [];
                        head_links := Linked |}), k)
     ∧ ∀ skb k'',
         ip_vs_ch_schedule
           (set_sched_data svc
              (Some {| count := 0; conhash := conhash tbl; node_head := [];
                       head_links := Linked |})) skb k''
         = Some (None, k'')).
Proof.
  intros Hsd Hm Hw. split.
  - intros Hn. apply (ip_vs_ch_update_svc_faults svc tbl); [done|].
    by apply no_entries_entries.
  - intros Hne. split; [|done].
    unfold ip_vs_ch_update_svc. rewrite Hsd. cbn [mbind option_bind].
    rewrite ip_vs_ch_flush_no_entries by done. cbn [mbind option_bind].
    by rewrite ip_vs_ch_assign_unweighted.
Qed.

Lemma update_without_weighted_dests_witness :
  sched_data one_dest_bound = Some one_dest_tbl
  ∧ dests_mapped (one_dest_quiesced []) (destinations one_dest_bound)
  ∧ (∀ (p : dest_ptr) d,
       p ∈ destinations one_dest_bound →
       dests (one_dest_quiesced []) !! p = Some d → weight d <= 0)
  ∧ node_head one_dest_tbl ≠ []
  ∧ ip_vs_ch_update_svc (plat := sample_platform) one_dest_bound
      (one_dest_quiesced []) = None.
Proof.
  assert (H1 : dests_mapped (one_dest_quiesced []) (destinations one_dest_bound))
    by (apply (bool_decide_unpack _); by vm_compute).
  assert (H2 : ∀ (p : dest_ptr) d,
             p ∈ destinations one_dest_bound →
             dests (one_dest_quiesced []) !! p = Some d → weight d <= 0).
  { intros p d Hp Hd. apply list_elem_of_singleton in Hp as ->.
    vm_compute in Hd. injection Hd as <-. simpl. lia. }
  destruct (update_without_weighted_dests (plat := sample_platform)
              one_dest_bound one_dest_tbl (one_dest_quiesced []) eq_refl H1 H2)
    as [Hfault _].
  split; [reflexivity|]. split; [exact H1|]. split; [exact H2|].
  split; [exact one_dest_tbl_entries|].
  exact (Hfault one_dest_tbl_entries).
Defined.

(** C8.  Two calls of [ip_vs_ch_update_svc] in a row, with the list of
    destinations, their weights and their flags unchanged and no allocation
    failing, do not get through when a destination has positive weight:
    either the table already holds an entry and the first call has no
    result, or the first call builds the entries and the second, flushing
    them, reads the link of the entry it has just freed. *)
Theorem update_twice_reads_freed_entry {plat : Platform} svc tbl k :
  sched_data svc = Some tbl →
  dests_mapped k (destinations svc) →
  kmem_ok k →
  weighted (dests k) (destinations svc) ≠ [] →
  (node_head tbl ≠ [] → ip_vs_ch_update_svc svc k = None)
  ∧ (no_entries tbl →
     ∃ tbl1 k1,
       ip_vs_ch_update_svc svc k = Some (0, set_sched_data svc (Some tbl1), k1)
       ∧ node_dests (node_head tbl1) = weighted (dests k) (destinations svc)
       ∧ ip_vs_ch_update_svc (set_sched_data svc (Some tbl1)) k1 = None).
Proof.
  intros Hsd Hm Hk Hw. split.
  - intros Hn. apply (ip_vs_ch_update_svc_faults svc tbl); [done|].
    by apply no_entries_entries.
  - intros Hne.
    destruct (ip_vs_ch_update_svc_spec svc tbl k Hsd Hne Hm)
      as (tbl1 & k1 & Hrun & _ & _ & _ & _ & _ & Hok).
    destruct (Hok Hk) as [Hnh _].
    exists tbl1, k1. split; [done|].
    split; [by rewrite Hnh, node_dests_nodes_for_eq|].
    apply (ip_vs_ch_update_svc_faults _ tbl1); [done|].
    apply no_entries_entries. intros Hnil.
    rewrite Hnil in Hnh. apply Hw.
    by rewrite <- node_dests_nodes_for_eq, <- Hnh.
Qed.

Lemma update_twice_reads_freed_entry_witness :
  sched_data one_dest_unbuilt = Some empty_tbl
  ∧ dests_mapped (one_dest []) (destinations one_dest_unbuilt)
  ∧ kmem_ok (one_dest [])
  ∧ weighted (dests (one_dest [])) (destinations one_dest_unbuilt) ≠ []
  ∧ no_entries empty_tbl
  ∧ ∃ tbl1 k1,
      ip_vs_ch_update_svc (plat := sample_platform) one_dest_unbuilt (one_dest [])
        = Some (0, set_sched_data one_dest_unbuilt (Some tbl1), k1)
      ∧ node_dests (node_head tbl1) = [1%positive]
      ∧ ip_vs_ch_update_svc (plat := sample_platform)
          (set_sched_data one_dest_unbuilt (Some tbl1)) k1 = None.
Proof.
  assert (H1 : dests_mapped (one_dest []) (destinations one_dest_unbuilt))
    by (apply (bool_decide_unpack _); by vm_compute).
  assert (H2 : kmem_ok (one_dest [])) by constructor.
  assert (H3 : weighted (dests (one_dest [])) (destinations one_dest_unbuilt) ≠ [])
    by (vm_compute; discriminate).
  destruct (update_twice_reads_freed_entry (plat := sample_platform)
              one_dest_unbuilt empty_tbl (one_dest []) eq_refl H1 H2 H3)
    as [_ Hrun].
  destruct (Hrun empty_tbl_no_entries) as (tbl1 & k1 & Hu1 & Hnd & Hu2).
  split; [reflexivity|]. split; [exact H1|]. split; [exact H2|].
  split; [exact H3|]. split; [exact empty_tbl_no_entries|].
  exists tbl1, k1. split; [exact Hu1|]. split; [|exact Hu2].
  rewrite Hnd. reflexivity.
Defined.

(** C9.  [ip_vs_ch_assign] makes one node entry per destination of positive
    weight (all of them when no allocation fails, those before the first
    failed allocation otherwise) and adds one to the reference count of
    each of these destinations, and of no other; [ip_vs_ch_schedule]
    changes nothing in the kernel state.  The references are not given
    back: [ip_vs_ch_flush] has a result only on a table without entries,
    where it has no reference to drop, and [ip_vs_ch_done_svc] after an
    [ip_vs_ch_init_svc] that made an entry has none. *)
Theorem refcnt_taken_not_released {plat : Platform} svc tbl skb k :
  NoDup (destinations svc) →
  dests_mapped k (destinations svc) →
  (∃ r tbl' k',
     ip_vs_ch_assign tbl svc k = Some (r, tbl', k')
     ∧ node_dests (node_head tbl')
         `prefix_of` weighted (dests k) (destinations svc)
     ∧ length (node_head tbl') = length (node_dests (node_head tbl'))
     ∧ (kmem_ok k → r = 0)
     ∧ (r = 0 →
        node_dests (node_head tbl') = weighted (dests k) (destinations svc))
     ∧ ∀ p : dest_ptr,
         refcnt_at k' p =
           if decide (p ∈ node_dests (node_head tbl'))
           then (λ c, int32 (c + 1)) <$> refcnt_at k p
           else refcnt_at k p)
  ∧ ((node_head tbl ≠ [] → ip_vs_ch_flush tbl k = None)
     ∧ (no_entries tbl →
        ip_vs_ch_flush tbl k
        = Some ({| count := 0; conhash := conhash tbl; node_head := [];
                   head_links := Poisoned |}, k)))
  ∧ (∃ r svc1 k1,
     ip_vs_ch_init_svc svc k = Some (r, svc1, k1)
     ∧ (r ≠ 0 → ∀ p : dest_ptr, refcnt_at k1 p = refcnt_at k p)
     ∧ (r = 0 →
        ∃ tbl1,
          sched_data svc1 = Some tbl1
          ∧ (kmem_ok k →
             node_dests (node_head tbl1) = weighted (dests k) (destinations svc))
          ∧ (∀ p : dest_ptr,
               refcnt_at k1 p =
                 if decide (p ∈ node_dests (node_head tbl1))
                 then (λ c, int32 (c + 1)) <$> refcnt_at k p
                 else refcnt_at k p)
          ∧ (node_head tbl1 ≠ [] → ip_vs_ch_done_svc svc1 k1 = None)
          ∧ (node_head tbl1 = [] →
             ip_vs_ch_done_svc svc1 k1 = Some (0, set_sched_data svc1 None, k1)
             ∧ dests k1 = dests k)))
  ∧ (∀ r k', ip_vs_ch_schedule svc skb k = Some (r, k') → k' = k).
Proof.
  intros Hnd Hm.
  assert (Hpre_nd : ∀ l, l `prefix_of` nodes_for (dests k) (destinations svc) →
                         NoDup (node_dests l)).
  { intros l Hl. apply node_dests_prefix in Hl.
    rewrite node_dests_nodes_for_eq in Hl.
    eapply prefix_NoDup; [exact Hl|]. by apply weighted_NoDup. }
  assert (Hlen : ∀ l, l `prefix_of` nodes_for (dests k) (destinations svc) →
                      length l = length (node_dests l)).
  { intros l [t Ht]. unfold node_dests.
    assert (Hall : Forall (λ n, is_Some (dest n)) l).
    { apply Forall_forall. intros n Hin.
      assert (Hin' : n ∈ nodes_for (dests k) (destinations svc))
        by (rewrite Ht; apply elem_of_app; by left).
      apply nodes_for_elem in Hin' as (p & d & _ & _ & _ & ->). by eexists. }
    clear Ht. induction Hall as [|n l [p Hp] _ IH]; [done|].
    cbn [omap list_omap]. rewrite Hp. simpl. by rewrite IH. }
  split; [|split; [|split]].
  - destruct (ip_vs_ch_assign_spec tbl svc k Hm)
      as (r & tbl' & k' & Hrun & Hpre & _ & _ & Hds & Hr & _).
    exists r, tbl', k'. split; [done|]. split.
    { rewrite <- node_dests_nodes_for_eq. by apply node_dests_prefix. }
    split; [by apply Hlen|]. split.
    { intros Hk. by destruct Hr as [[-> _]|[_ Hr]]. }
    split.
    { intros ->. destruct Hr as [[_ ->]|[Hr _]].
      - apply node_dests_nodes_for_eq.
      - unfold ENOMEM in Hr. lia. }
    intros p. destruct k as [m h], k' as [m' h']. simpl in Hds. subst h'.
    apply (refcnt_at_alter_list atomic_inc_refcnt); [done|by apply Hpre_nd].
  - split.
    + intros Hn. by apply ip_vs_ch_flush_faults, no_entries_entries.
    + apply ip_vs_ch_flush_no_entries.
  - destruct (kmalloc (kmem k)) as [[] m] eqn:Ha.
    + destruct (ip_vs_ch_init_svc_spec svc k m Ha Hm)
        as (tbl1 & k1 & Hrun & _ & Hpre & _ & Hds1 & Hok).
      destruct (ip_vs_ch_init_svc_links _ _ _ _ Hrun) as (t & [= <-] & Hl).
      eexists 0, _, k1. split; [exact Hrun|]. split; [done|]. intros _.
      exists tbl1. split; [done|]. split.
      { intros Hk. destruct (Hok Hk) as [-> _]. apply node_dests_nodes_for_eq. }
      split.
      { intros p. destruct k as [m0 h], k1 as [m1 h1]. simpl in Hds1. subst h1.
        apply (refcnt_at_alter_list atomic_inc_refcnt); [done|by apply Hpre_nd]. }
      split.
      * intros Hn. apply (ip_vs_ch_done_svc_faults _ tbl1); [done|].
        by apply no_entries_entries.
      * intros Hn. split.
        -- by apply (ip_vs_ch_done_svc_spec _ tbl1).
        -- by rewrite Hds1, Hn.
    + eexists _, _, _. split; [by apply ip_vs_ch_init_svc_nomem|].
      split; [done|]. unfold ENOMEM. lia.
  - intros r k'. apply ip_vs_ch_schedule_pure.
Qed.

Lemma refcnt_taken_not_released_witness :
  NoDup (destinations one_dest_svc)
  ∧ dests_mapped (one_dest []) (destinations one_dest_svc)
  ∧ ∃ svc1 k1,
      ip_vs_ch_init_svc (plat := sample_platform) one_dest_svc (one_dest [])
        = Some (0, svc1, k1)
      ∧ refcnt_at (one_dest []) 1%positive = Some 1
      ∧ refcnt_at k1 1%positive = Some 2
      ∧ ip_vs_ch_done_svc (plat := sample_platform) svc1 k1 = None.
Proof.
  assert (H1 : NoDup (destinations one_dest_svc))
    by (apply (bool_decide_unpack _); by vm_compute).
  assert (H2 : dests_mapped (one_dest []) (destinations one_dest_svc))
    by (apply (bool_decide_unpack _); by vm_compute).
  destruct (refcnt_taken_not_released (plat := sample_platform) one_dest_svc
              empty_tbl (packet_from 7) (one_dest []) H1 H2)
    as (_ & _ & (r & svc1 & k1 & Hinit & _ & Hdone) & _).
  split; [exact H1|]. split; [exact H2|].
  assert (r = 0) as ->.
  { unfold ip_vs_ch_init_svc in Hinit. simpl in Hinit.
    destruct (ip_vs_ch_assign _ _ _) as [[[? ?] ?]|]; simpl in Hinit; congruence. }
  destruct (Hdone eq_refl) as (tbl1 & Hsd & Hw & Hrc & Hfault & _).
  assert (Hnd : node_dests (node_head tbl1) = [1%positive])
    by (rewrite Hw by constructor; reflexivity).
  exists svc1, k1. split; [exact Hinit|]. split; [reflexivity|]. split.
  - rewrite Hrc, Hnd. reflexivity.
  - apply Hfault. intros Hnil. rewrite Hnil in Hnd. discriminate Hnd.
Defined.

(** C10.  The key that [ip_vs_ch_schedule] looks up is made of the [ip] word
    of the source address and the index alone, so two packets whose source
    addresses agree on that word are scheduled alike on the same state; the
    identity of a node entry is made of the [ip] word of its destination's
    address alone. *)
Theorem schedule_reads_ip_word_only {plat : Platform} svc tbl skb1 skb2 k d1 d2 :
  ip (nh_saddr skb1) = ip (nh_saddr skb2) →
  ip (addr d1) = ip (addr d2) →
  dests_mapped k (destinations svc) →
  ip_vs_ch_schedule svc skb1 k = ip_vs_ch_schedule svc skb2 k
  ∧ (∀ sport,
       lookup_key (nh_saddr skb1) sport
       = fmt_u (ntohl (ip (nh_saddr skb2))) +:+ ":" +:+ fmt_u sport)
  ∧ dest_iden d1 = dest_iden d2
  ∧ ∃ r tbl' k',
      ip_vs_ch_assign tbl svc k = Some (r, tbl', k')
      ∧ ∀ n, n ∈ node_head tbl' →
          ∃ (p : dest_ptr) d,
            dest n = Some p ∧ dests k !! p = Some d
            ∧ iden n = fmt_u (ntohl (ip (addr d))).
Proof.
  intros Ha Hd Hm. split; [|split; [|split]].
  - unfold ip_vs_ch_schedule. destruct (sched_data svc) as [t|]; [|done].
    cbn [mbind option_bind ip_vs_fill_iphdr saddr].
    by rewrite (schedule_loop_ext _ 0 (af svc) (af svc) t t
                  (nh_saddr skb1) (nh_saddr skb2) k k eq_refl Ha).
  - intros sport. unfold lookup_key. by rewrite Ha.
  - unfold dest_iden. by rewrite Hd.
  - destruct (ip_vs_ch_assign_spec tbl svc k Hm)
      as (r & tbl' & k' & Hrun & Hpre & _).
    exists r, tbl', k'. split; [done|]. intros n Hn.
    apply (prefix_elem _ _ _ Hpre) in Hn.
    apply nodes_for_elem in Hn as (p & d & _ & Hp & _ & ->).
    by exists p, d.
Qed.

Lemma schedule_reads_ip_word_only_witness :
  ip (nh_saddr packet6_a) = ip (nh_saddr packet6_b)
  ∧ ip (addr D1) = ip (addr D1')
  ∧ dests_mapped (two_dests []) (destinations two_dest_bound)
  ∧ nh_saddr packet6_a ≠ nh_saddr packet6_b
  ∧ ip_vs_ch_schedule (plat := sample_platform) two_dest_bound packet6_a
      (two_dests [])
    = ip_vs_ch_schedule (plat := sample_platform) two_dest_bound packet6_b
        (two_dests [])
  ∧ dest_iden (plat := sample_platform) D1
    = dest_iden (plat := sample_platform) D1'.
Proof.
  destruct (two_dest_bound_ok []) as (t & _ & _ & H3 & _).
  destruct (schedule_reads_ip_word_only (plat := sample_platform)
              two_dest_bound two_dest_tbl packet6_a packet6_b (two_dests [])
              D1 D1' eq_refl eq_refl H3) as (Hs & _ & Hi & _).
  split; [reflexivity|]. split; [reflexivity|]. split; [exact H3|].
  split; [discriminate|]. split; [exact Hs|exact Hi].
Defined.

(** * Further properties of the module *)

(** ** Formatted strings *)

Lemma string_length_app s1 s2 :
  String.length (s1 +:+ s2) = (String.length s1 + String.length s2)%nat.
Proof. induction s1 as [|c s1 IH]; simpl; [done|]. by rewrite IH. Qed.

Lemma pretty_N_char_no_colon x : pretty_N_char x ≠ ":"%char.
Proof. unfold pretty_N_char. by repeat case_match. Qed.

Lemma pretty_N_go_no_colon x : ∀ s,
  Forall (λ c, c ≠ ":"%char) (list_ascii_of_string s) →
  Forall (λ c, c ≠ ":"%char) (list_ascii_of_string (pretty_N_go x s)).
Proof.
  induction (N.lt_wf_0 x) as [x _ IH]; intros s Hs.
  assert (x = 0 ∨ 0 < x)%N as [->|Hx] by lia; [by rewrite pretty_N_go_0|].
  rewrite pretty_N_go_step by done. apply IH; [by apply N.div_lt|].
  simpl. constructor; [apply pretty_N_char_no_colon|done].
Qed.

(** [%u] writes digits only. *)
Lemma fmt_u_no_colon x : Forall (λ c, c ≠ ":"%char) (list_ascii_of_string (fmt_u x)).
Proof.
  unfold fmt_u, pretty, pretty_N. case_decide.
  - by repeat constructor.
  - apply pretty_N_go_no_colon. constructor.
Qed.

Lemma pretty_N_go_length (n : nat) : ∀ x s,
  (x < 10 ^ N.of_nat n)%N →
  (String.length (pretty_N_go x s) ≤ String.length s + n)%nat.
Proof.
  induction n as [|n IH]; intros x s Hx.
  - assert (x = 0%N) as -> by (simpl in Hx; lia). rewrite pretty_N_go_0. lia.
  - assert (x = 0 ∨ 0 < x)%N as [->|Hpos] by lia.
    { rewrite pretty_N_go_0. lia. }
    rewrite pretty_N_go_step by done.
    rewrite Nat2N.inj_succ, N.pow_succ_r' in Hx.
    etrans; [apply IH; by apply N.Div0.div_lt_upper_bound|]. simpl. lia.
Qed.

(** [%u] of a value below [10 ^ n] writes at most [n] digits. *)
Lemma fmt_u_length (n : nat) x :
  (0 < n)%nat → 0 <= x < 10 ^ Z.of_nat n → (String.length (fmt_u x) ≤ n)%nat.
Proof.
  intros Hn Hx. unfold fmt_u, pretty, pretty_N. case_decide; [simpl; lia|].
  etrans; [apply (pretty_N_go_length n)|simpl; lia].
  apply N2Z.inj_lt. rewrite Z2N.id by lia.
  rewrite N2Z.inj_pow, nat_N_Z. simpl. lia.
Qed.

(** A string of the form "<a>:<b>" with no colon in [a] splits in one way. *)
Lemma colon_split a : ∀ a' b b',
  Forall (λ c, c ≠ ":"%char) (list_ascii_of_string a) →
  Forall (λ c, c ≠ ":"%char) (list_ascii_of_string a') →
  a +:+ ":" +:+ b = a' +:+ ":" +:+ b' → a = a' ∧ b = b'.
Proof.
  induction a as [|c a IH]; intros [|c' a'] b b' Ha Ha'; simpl.
  - intros E. by simplify_eq.
  - intros E. simplify_eq. by apply Forall_cons in Ha' as [? _].
  - intros E. simplify_eq. by apply Forall_cons in Ha as [? _].
  - intros E. injection E as -> E. simpl in Ha, Ha'.
    apply Forall_cons in Ha as [_ Ha]. apply Forall_cons in Ha' as [_ Ha'].
    destruct (IH a' b b' Ha Ha' E) as [-> ->]. done.
Qed.

Section KeyFacts.
Context {plat : Platform}.

Lemma ntohl_range x : 0 <= ntohl x < 2 ^ 32.
Proof.
  unfold ntohl. destruct big_endian; [|apply swab32_range].
  unfold uint32. apply Z.mod_pos_bound. lia.
Qed.

Lemma ntohl_inj x y : ntohl x = ntohl y ↔ uint32 x = uint32 y.
Proof.
  unfold ntohl. destruct big_endian; [done|apply swab32_inj].
Qed.

Lemma uint16_range x : 0 <= uint16 x < 2 ^ 16.
Proof. unfold uint16. apply Z.mod_pos_bound. lia. Qed.
End KeyFacts.

(** ** The lookup key and the node identity *)

(** X7.  Two lookup keys of [ip_vs_ch_get] coincide exactly when the [ip]
    words of the two addresses agree on 32 bits and the two indices agree on
    the 16 bits of the [__be16] parameter: different sources and different
    attempts below 65536 never share a key, and the attempts [i] and
    [i + 65536] always do. *)
Theorem lookup_key_aliasing {plat : Platform} a1 a2 i j :
  (lookup_key a1 (uint16 i) = lookup_key a2 (uint16 j)
   ↔ uint32 (ip a1) = uint32 (ip a2) ∧ uint16 i = uint16 j)
  ∧ lookup_key a1 (uint16 (i + 65536)) = lookup_key a1 (uint16 i).
Proof.
  split.
  - unfold lookup_key. split.
    + intros E. apply colon_split in E as [E1 E2]; try apply fmt_u_no_colon.
      split.
      * apply ntohl_inj. apply fmt_u_inj; [apply ntohl_range..|done].
      * apply fmt_u_inj; [apply uint16_range..|done].
    + intros [E1 E2]. apply ntohl_inj in E1. by rewrite E1, E2.
  - f_equal. unfold uint16. change 65536 with (1 * 2 ^ 16).
    by rewrite Z.mod_add.
Qed.

(** X8.  The strings that [ip_vs_ch_get] and [ip_vs_ch_assign] format fit
    their 40-byte buffers with the terminating NUL: the key has at most 16
    characters and the node identity at most 10. *)
Theorem formatted_strings_fit {plat : Platform} a i d :
  (String.length (lookup_key a (uint16 i)) ≤ 16)%nat
  ∧ (String.length (dest_iden d) ≤ 10)%nat
  ∧ (String.length (lookup_key a (uint16 i)) + 1 ≤ 40)%nat
  ∧ (String.length (dest_iden d) + 1 ≤ 40)%nat.
Proof.
  assert (H10 : ∀ x, (String.length (fmt_u (ntohl x)) ≤ 10)%nat).
  { intros x. apply fmt_u_length; [lia|]. pose proof (ntohl_range x). simpl. lia. }
  assert (H5 : (String.length (fmt_u (uint16 i)) ≤ 5)%nat).
  { apply fmt_u_length; [lia|]. pose proof (uint16_range i). simpl. lia. }
  assert (Hk : (String.length (lookup_key a (uint16 i)) ≤ 16)%nat).
  { unfold lookup_key. rewrite !string_length_app. simpl.
    specialize (H10 (ip a)). lia. }
  unfold dest_iden. specialize (H10 (ip (addr d))). lia.
Qed.

(** ** The service hooks *)

Section HookFacts.
Context {plat : Platform}.

Lemma nodes_for_length_le h l : (length (nodes_for h l) ≤ length l)%nat.
Proof.
  rewrite nodes_for_length, <- node_dests_nodes_for_eq.
  apply sublist_length, node_dests_nodes_for.
Qed.

End HookFacts.

(** X1.  [ip_vs_ch_init_svc] returns 0 or -ENOMEM, and -ENOMEM exactly when
    the allocation of the table itself fails; in that case it has touched
    neither the service nor any destination.  When it returns 0 the service
    has a table and keeps its list of destinations. *)
Theorem ip_vs_ch_init_svc_error_path {plat : Platform} svc k :
  dests_mapped k (destinations svc) →
  ∃ r svc' k',
    ip_vs_ch_init_svc svc k = Some (r, svc', k')
    ∧ (r = 0 ∨ r = - ENOMEM)
    ∧ (r = - ENOMEM ↔ ∃ m, kmem k = false :: m)
    ∧ (r = - ENOMEM → svc' = svc ∧ dests k' = dests k)
    ∧ (r = 0 →
       is_Some (sched_data svc')
       ∧ af svc' = af svc ∧ destinations svc' = destinations svc).
Proof.
  intros Hm. destruct (kmalloc (kmem k)) as [[] m] eqn:Ha.
  - destruct (ip_vs_ch_init_svc_spec svc k m Ha Hm) as (tbl' & k' & Hrun & _).
    eexists 0, _, k'. split; [exact Hrun|]. split; [by left|].
    unfold ENOMEM. split; [|split; [lia|done]]. split; [lia|].
    intros [m' Hk]. rewrite Hk in Ha. done.
  - eexists _, _, _. split; [by apply ip_vs_ch_init_svc_nomem|].
    split; [by right|]. split; [|split; [done|unfold ENOMEM; lia]].
    split; [|done]. intros _. destruct (kmem k) as [|[] m']; simpl in Ha; try done.
    by exists m'.
Qed.

Lemma ip_vs_ch_init_svc_error_path_witness :
  dests_mapped (one_dest [false]) (destinations one_dest_svc)
  ∧ ip_vs_ch_init_svc (plat := sample_platform) one_dest_svc (one_dest [false])
    = Some (- ENOMEM, one_dest_svc, one_dest []).
Proof.
  assert (H1 : dests_mapped (one_dest [false]) (destinations one_dest_svc))
    by (apply (bool_decide_unpack _); by vm_compute).
  split; [exact H1|].
  destruct (ip_vs_ch_init_svc_error_path (plat := sample_platform)
              one_dest_svc (one_dest [false]) H1)
    as (r & svc' & k' & Hrun & _ & [_ Hr] & _).
  rewrite Hrun. vm_compute in Hrun. by injection Hrun as <- <- <-.
Defined.

(** X2.  After [ip_vs_ch_init_svc], and after [ip_vs_ch_update_svc] on a
    table without entries, whatever the allocations did, [count] is the
    number of node entries on the table's list (as an unsigned 32-bit
    value), and there are no more entries than destinations on the
    service's list: the scheduling loop makes one attempt per entry. *)
Theorem count_tracks_node_entries {plat : Platform} svc k :
  dests_mapped k (destinations svc) →
  (∃ r svc' k',
     ip_vs_ch_init_svc svc k = Some (r, svc', k')
     ∧ (r = 0 →
        ∃ tbl', sched_data svc' = Some tbl'
          ∧ count tbl' = uint32 (Z.of_nat (length (node_head tbl')))
          ∧ (length (node_head tbl') ≤ length (destinations svc))%nat))
  ∧ (∀ tbl,
       sched_data svc = Some tbl →
       no_entries tbl →
       ∃ tbl' k',
         ip_vs_ch_update_svc svc k = Some (0, set_sched_data svc (Some tbl'), k')
         ∧ count tbl' = uint32 (Z.of_nat (length (node_head tbl')))
         ∧ (length (node_head tbl') ≤ length (destinations svc))%nat).
Proof.
  intros Hm. split.
  - destruct (kmalloc (kmem k)) as [[] m] eqn:Ha.
    + destruct (ip_vs_ch_init_svc_spec svc k m Ha Hm)
        as (tbl' & k' & Hrun & _ & Hpre & Hc & _).
      eexists 0, _, k'. split; [exact Hrun|]. intros _. exists tbl'.
      split; [done|]. split; [done|].
      etrans; [by apply prefix_length|apply nodes_for_length_le].
    + eexists _, _, _. split; [by apply ip_vs_ch_init_svc_nomem|].
      unfold ENOMEM. lia.
  - intros tbl Hsd Hne.
    destruct (ip_vs_ch_update_svc_spec svc tbl k Hsd Hne Hm)
      as (tbl' & k' & Hrun & _ & Hpre & Hc & _).
    exists tbl', k'. split; [done|]. split; [done|].
    etrans; [by apply prefix_length|apply nodes_for_length_le].
Qed.

Lemma count_tracks_node_entries_witness :
  dests_mapped (two_dests [true; false]) (destinations two_dest_unbuilt)
  ∧ sched_data two_dest_unbuilt = Some empty_tbl
  ∧ no_entries empty_tbl
  ∧ ∃ tbl' k',
      ip_vs_ch_update_svc (plat := sample_platform) two_dest_unbuilt
        (two_dests [true; false])
      = Some (0, set_sched_data two_dest_unbuilt (Some tbl'), k')
      ∧ count tbl' = uint32 (Z.of_nat (length (node_head tbl'))).
Proof.
  assert (H1 : dests_mapped (two_dests [true; false])
                 (destinations two_dest_unbuilt))
    by (apply (bool_decide_unpack _); by vm_compute).
  destruct (count_tracks_node_entries (plat := sample_platform)
              two_dest_unbuilt (two_dests [true; false]) H1) as [_ Hupd].
  destruct (Hupd empty_tbl eq_refl empty_tbl_no_entries)
    as (tbl' & k' & Hrun & Hc & _).
  split; [exact H1|]. split; [reflexivity|].
  split; [exact empty_tbl_no_entries|].
  by exists tbl', k'.
Defined.



(** X9.  The replica count that [ip_vs_ch_assign] hands to
    [conhash_set_node] for a destination is the [int] product
    [weight * REPLICA]: it is [weight] times 160 exactly when the weight is
    at most 13421772, and wraps around above. *)
Theorem assigned_replica_count {plat : Platform} tbl svc k :
  dests_mapped k (destinations svc) →
  ∃ r tbl' k',
    ip_vs_ch_assign tbl svc k = Some (r, tbl', k')
    ∧ ∀ n, n ∈ node_head tbl' →
        ∃ (p : dest_ptr) d,
          dest n = Some p ∧ dests k !! p = Some d ∧ 0 < weight d
          ∧ replicas n = int32 (weight d * 160)
          ∧ (replicas n = weight d * 160 ↔ weight d <= 13421772).
Proof.
  intros Hm.
  destruct (ip_vs_ch_assign_spec tbl svc k Hm) as (r & tbl' & k' & Hrun & Hpre & _).
  exists r, tbl', k'. split; [done|]. intros n Hn.
  apply (prefix_elem _ _ _ Hpre) in Hn.
  apply nodes_for_elem in Hn as (p & d & _ & Hp & Hw & ->).
  exists p, d. split; [done|]. split; [done|]. split; [done|].
  split; [done|]. simpl. unfold int32, REPLICA.
  split; intros E; Z.div_mod_to_equations; lia.
Qed.

Lemma assigned_replica_count_witness :
  dests_mapped (two_dests []) (destinations two_dest_svc)
  ∧ ∃ r tbl' k',
      ip_vs_ch_assign (plat := sample_platform)
        {| count := 0; conhash := []; node_head := [];
           head_links := Uninitialised |} two_dest_svc (two_dests [])
      = Some (r, tbl', k')
      ∧ ∀ n, n ∈ node_head tbl' → ∃ w, 0 < w ∧ replicas n = int32 (w * 160).
Proof.
  assert (H1 : dests_mapped (two_dests []) (destinations two_dest_svc))
    by (apply (bool_decide_unpack _); by vm_compute).
  destruct (assigned_replica_count (plat := sample_platform)
              {| count := 0; conhash := []; node_head := [];
                 head_links := Uninitialised |}
              two_dest_svc (two_dests []) H1) as (r & tbl' & k' & Hrun & Hn).
  split; [exact H1|]. exists r, tbl', k'. split; [exact Hrun|].
  intros n Hin. destruct (Hn n Hin) as (p & d & _ & _ & Hw & Hr & _).
  by exists (weight d).
Defined.

(** ** What the scheduler returns *)

(** X6.  On a service whose table is in order, what [ip_vs_ch_schedule]
    returns is a destination that one of the table's node entries refers
    to, hence one whose reference the table holds, and it is in memory. *)
Theorem schedule_returns_held_destination {plat : Platform} svc skb k :
  svc_ok k svc →
  ∃ tbl r,
    sched_data svc = Some tbl
    ∧ ip_vs_ch_schedule svc skb k = Some (r, k)
    ∧ ∀ p, r = Some p →
        p ∈ node_dests (node_head tbl) ∧ is_Some (dests k !! p).
Proof.
  intros (tbl & Hsd & Hb & Hm & Hn).
  pose proof (tbl_built_mapped _ _ Hb Hn) as Hrm.
  exists tbl. unfold ip_vs_ch_schedule. rewrite Hsd.
  cbn [mbind option_bind ip_vs_fill_iphdr saddr].
  destruct (schedule_loop_spec k (af svc) tbl (nh_saddr skb)
              (Z.to_nat (count tbl)) 0 Hrm) as (r & -> & Hspec).
  exists r. cbn [mbind option_bind]. split; [done|]. split; [done|].
  intros p ->. destruct Hspec as (j & _ & Hc & (d & Hd & _) & _).
  split; [|by exists d].
  unfold candidate, conhash_lookup in Hc.
  destruct (lookupSuccessor _ _) as [v|] eqn:E; simpl in Hc; [|done].
  apply lookupSuccessor_elem in E. apply (tbl_built_owner _ _ Hb) in E.
  unfold node_dests. apply list_elem_of_omap. by exists (vn_node v).
Qed.

Lemma schedule_returns_held_destination_witness :
  svc_ok (plat := sample_platform) (two_dests []) two_dest_bound
  ∧ ∃ r,
      ip_vs_ch_schedule (plat := sample_platform) two_dest_bound (packet_from 7)
        (two_dests []) = Some (r, two_dests [])
      ∧ ∀ p, r = Some p → p ∈ node_dests (node_head two_dest_tbl).
Proof.
  pose proof (two_dest_bound_ok []) as H1.
  destruct (schedule_returns_held_destination (plat := sample_platform)
              two_dest_bound (packet_from 7) (two_dests []) H1)
    as (tbl & r & [= <-] & Hrun & Hp).
  split; [exact H1|]. exists r. split; [exact Hrun|].
  intros p Hr. by destruct (Hp p Hr).
Defined.

(** ** Allocations of a pass of [ip_vs_ch_assign] *)

Section AllocFacts.
Context {plat : Platform}.

(** The loop stops at the first allocation that fails, with the entries
    allocated before it in place. *)
Lemma assign_loop_failure l : ∀ tbl k j m,
  head_links tbl = Linked →
  dests_mapped k l →
  kmem k = replicate j true ++ false :: m →
  (j < length (nodes_for (dests k) l))%nat →
  ∃ tbl' k',
    assign_loop l tbl k = Some (- ENOMEM, tbl', k')
    ∧ node_head tbl' = node_head tbl ++ take j (nodes_for (dests k) l)
    ∧ kmem k' = m.
Proof.
  induction l as [|p l IH]; intros tbl k j m Hl Hm Hk Hj.
  - simpl in Hj. lia.
  - apply Forall_cons in Hm as [[d Hd] Hm]. cbn [assign_loop].
    rewrite Hd. cbn [mbind option_bind].
    destruct (Z.ltb_spec 0 (weight d)) as [Hw|Hw].
    + rewrite (nodes_for_cons_pos _ _ d) in Hj |- * by done.
      rewrite Hk. destruct j as [|j]; cbn [replicate app kmalloc].
      * eexists tbl, _. split; [done|]. by rewrite app_nil_r.
      * rewrite Hl.
        destruct (IH {| count := uint32 (count tbl + 1);
                        conhash := conhash_add_node (conhash tbl) (node_of p d);
                        node_head := node_head tbl ++ [node_of p d];
                        head_links := Linked |}
                     {| kmem := replicate j true ++ false :: m;
                        dests := alter atomic_inc_refcnt p (dests k) |}
                     j m eq_refl (dests_mapped_alter _ _ _ _ _ Hm) eq_refl)
          as (tbl' & k' & Hrun & Hnh & Hk').
        { cbn [dests].
          rewrite (nodes_for_erase (alter atomic_inc_refcnt p (dests k)) (dests k))
            by (apply erase_alter, erase_atomic_inc).
          simpl in Hj. lia. }
        exists tbl', k'. split; [exact Hrun|]. split; [|done].
        cbn [dests node_head] in Hnh.
        rewrite (nodes_for_erase (alter atomic_inc_refcnt p (dests k)) (dests k)) in Hnh
          by (apply erase_alter, erase_atomic_inc).
        by rewrite Hnh, <- app_assoc.
    + rewrite (nodes_for_cons_nonpos _ _ d) in Hj |- * by done.
      by apply IH.
Qed.

(** With as many successful allocations as there are entries to make, the
    loop makes them all and uses up exactly those allocations. *)
Lemma assign_loop_allocs l : ∀ tbl k m,
  head_links tbl = Linked →
  dests_mapped k l →
  kmem k = replicate (length (nodes_for (dests k) l)) true ++ m →
  ∃ tbl' k',
    assign_loop l tbl k = Some (0, tbl', k')
    ∧ node_head tbl' = node_head tbl ++ nodes_for (dests k) l
    ∧ kmem k' = m.
Proof.
  induction l as [|p l IH]; intros tbl k m Hl Hm Hk.
  - exists tbl, k. split; [done|]. split; [by rewrite app_nil_r|done].
  - apply Forall_cons in Hm as [[d Hd] Hm]. cbn [assign_loop].
    rewrite Hd. cbn [mbind option_bind].
    destruct (Z.ltb_spec 0 (weight d)) as [Hw|Hw].
    + rewrite (nodes_for_cons_pos _ _ d) in Hk |- * by done.
      rewrite Hk. cbn [length replicate app kmalloc]. rewrite Hl.
      destruct (IH {| count := uint32 (count tbl + 1);
                      conhash := conhash_add_node (conhash tbl) (node_of p d);
                      node_head := node_head tbl ++ [node_of p d];
                      head_links := Linked |}
                   {| kmem := replicate (length (nodes_for (dests k) l)) true ++ m;
                      dests := alter atomic_inc_refcnt p (dests k) |}
                   m eq_refl (dests_mapped_alter _ _ _ _ _ Hm))
        as (tbl' & k' & Hrun & Hnh & Hk').
      { cbn [dests kmem].
        by rewrite (nodes_for_erase (alter atomic_inc_refcnt p (dests k)) (dests k))
          by (apply erase_alter, erase_atomic_inc). }
      exists tbl', k'. split; [exact Hrun|]. split; [|done].
      cbn [dests node_head] in Hnh.
      rewrite (nodes_for_erase (alter atomic_inc_refcnt p (dests k)) (dests k)) in Hnh
        by (apply erase_alter, erase_atomic_inc).
      by rewrite Hnh, <- app_assoc.
    + rewrite (nodes_for_cons_nonpos _ _ d) in Hk |- * by done.
      by apply IH.
Qed.

Lemma node_dests_take_nodes_for h l : ∀ j,
  node_dests (take j (nodes_for h l)) = take j (weighted h l).
Proof.
  unfold node_dests, nodes_for, weighted.
  induction l as [|p l IH]; intros j; [by destruct j|].
  cbn [omap list_omap List.filter].
  destruct (h !! p) as [d|]; cbn [mbind option_bind]; [|apply IH].
  destruct (0 <? weight d); [|apply IH].
  destruct j as [|j]; [done|]. cbn [take omap list_omap node_of dest].
  by rewrite IH.
Qed.
End AllocFacts.

(** X10.  [ip_vs_ch_assign] stops at the first allocation that fails: when
    the allocation for the destination of positive weight number [j]
    (counted from 0) is the first to fail, it returns -ENOMEM and leaves in
    the table the entries of the [j] destinations of positive weight before
    it, their references taken, the later destinations untouched. *)
Theorem ip_vs_ch_assign_stops_at_failed_allocation {plat : Platform}
    tbl svc k j m :
  dests_mapped k (destinations svc) →
  kmem k = replicate j true ++ false :: m →
  (j < length (weighted (dests k) (destinations svc)))%nat →
  ∃ tbl' k',
    ip_vs_ch_assign tbl svc k = Some (- ENOMEM, tbl', k')
    ∧ node_head tbl' = take j (nodes_for (dests k) (destinations svc))
    ∧ node_dests (node_head tbl') = take j (weighted (dests k) (destinations svc))
    ∧ kmem k' = m
    ∧ dests k' = refs_taken (node_head tbl') (dests k).
Proof.
  intros Hm Hk Hj. rewrite <- nodes_for_length in Hj.
  unfold ip_vs_ch_assign.
  destruct (assign_loop_failure (destinations svc)
              {| count := count tbl; conhash := conhash tbl; node_head := [];
                 head_links := Linked |}
              k j m eq_refl Hm Hk Hj) as (tbl' & k' & Hrun & Hnh & Hk').
  destruct (assign_loop_spec (destinations svc)
              {| count := count tbl; conhash := conhash tbl; node_head := [];
                 head_links := Linked |}
              k eq_refl Hm)
    as (r & tbl2 & k2 & new & Hrun2 & _ & Hnh2 & _ & _ & Hds & _).
  rewrite Hrun in Hrun2. injection Hrun2 as _ <- <-.
  simpl in Hnh, Hnh2. subst new.
  exists tbl', k'. split; [done|]. split; [done|]. split; [|by rewrite Hds].
  rewrite Hnh. apply node_dests_take_nodes_for.
Qed.

Lemma ip_vs_ch_assign_stops_at_failed_allocation_witness :
  dests_mapped (two_dests [true; false; true]) (destinations two_dest_svc)
  ∧ ∃ tbl' k',
      ip_vs_ch_assign (plat := sample_platform)
        {| count := 0; conhash := conhash_init; node_head := [];
           head_links := Uninitialised |}
        two_dest_svc (two_dests [true; false; true])
      = Some (- ENOMEM, tbl', k')
      ∧ node_dests (node_head tbl') = [1%positive]
      ∧ kmem k' = [true].
Proof.
  assert (H1 : dests_mapped (two_dests [true; false; true])
                 (destinations two_dest_svc))
    by (apply (bool_decide_unpack _); by vm_compute).
  assert (H2 : (1 < length (weighted (dests (two_dests [true; false; true]))
                              (destinations two_dest_svc)))%nat)
    by (vm_compute; lia).
  destruct (ip_vs_ch_assign_stops_at_failed_allocation (plat := sample_platform)
              {| count := 0; conhash := conhash_init; node_head := [];
           head_links := Uninitialised |}
              two_dest_svc (two_dests [true; false; true]) 1 [true]
              H1 eq_refl H2)
    as (tbl' & k' & Hrun & _ & Hnd & Hk & _).
  split; [exact H1|]. exists tbl', k'. split; [exact Hrun|].
  split; [|exact Hk]. rewrite Hnd. by vm_compute.
Defined.

(** X11.  [ip_vs_ch_assign] makes one allocation per destination of positive
    weight and no other: when as many allocations succeed as the list has
    destinations of positive weight, it returns 0 with an entry for each of
    them and has used up exactly those allocations, whatever the later
    ones would have given. *)
Theorem ip_vs_ch_assign_allocates_per_weighted_dest {plat : Platform}
    tbl svc k m :
  dests_mapped k (destinations svc) →
  kmem k
  = replicate (length (weighted (dests k) (destinations svc))) true ++ m →
  ∃ tbl' k',
    ip_vs_ch_assign tbl svc k = Some (0, tbl', k')
    ∧ node_dests (node_head tbl') = weighted (dests k) (destinations svc)
    ∧ kmem k' = m.
Proof.
  intros Hm Hk. rewrite <- nodes_for_length in Hk. unfold ip_vs_ch_assign.
  destruct (assign_loop_allocs (destinations svc)
              {| count := count tbl; conhash := conhash tbl; node_head := [];
                 head_links := Linked |}
              k m eq_refl Hm Hk) as (tbl' & k' & Hrun & Hnh & Hk').
  exists tbl', k'. split; [done|]. split; [|done].
  simpl in Hnh. rewrite Hnh. apply node_dests_nodes_for_eq.
Qed.

Lemma ip_vs_ch_assign_allocates_per_weighted_dest_witness :
  dests_mapped (two_dests [true; true; false]) (destinations two_dest_svc)
  ∧ ∃ tbl' k',
      ip_vs_ch_assign (plat := sample_platform)
        {| count := 0; conhash := conhash_init; node_head := [];
           head_links := Uninitialised |}
        two_dest_svc (two_dests [true; true; false])
      = Some (0, tbl', k')
      ∧ node_dests (node_head tbl') = [1%positive; 2%positive]
      ∧ kmem k' = [false].
Proof.
  assert (H1 : dests_mapped (two_dests [true; true; false])
                 (destinations two_dest_svc))
    by (apply (bool_decide_unpack _); by vm_compute).
  destruct (ip_vs_ch_assign_allocates_per_weighted_dest (plat := sample_platform)
              {| count := 0; conhash := conhash_init; node_head := [];
           head_links := Uninitialised |}
              two_dest_svc (two_dests [true; true; false]) [false]
              H1 eq_refl)
    as (tbl' & k' & Hrun & Hnd & Hk).
  split; [exact H1|]. exists tbl', k'. split; [exact Hrun|].
  split; [|exact Hk]. rewrite Hnd. by vm_compute.
Defined.

(** ** Rebuilding and releasing a table *)

(** X4.  [ip_vs_ch_update_svc] and [ip_vs_ch_done_svc] have a result
    exactly on a table whose list is in order and holds no entry: on a
    table with an entry their [ip_vs_ch_flush] reads the link of the entry
    it has just freed.  On a table without entries the done changes nothing
    but [sched_data]. *)
Theorem hooks_need_table_without_entries {plat : Platform} svc tbl k :
  sched_data svc = Some tbl →
  dests_mapped k (destinations svc) →
  (is_Some (ip_vs_ch_update_svc svc k) ↔ no_entries tbl)
  ∧ (is_Some (ip_vs_ch_done_svc svc k) ↔ no_entries tbl)
  ∧ (no_entries tbl →
     ip_vs_ch_done_svc svc k = Some (0, set_sched_data svc None, k)).
Proof.
  intros Hsd Hm. split; [by apply ip_vs_ch_update_svc_is_Some|].
  split; [by apply ip_vs_ch_done_svc_is_Some|].
  by apply ip_vs_ch_done_svc_spec.
Qed.

Lemma hooks_need_table_without_entries_witness :
  sched_data two_dest_bound = Some two_dest_tbl
  ∧ dests_mapped (two_dests []) (destinations two_dest_bound)
  ∧ ¬ no_entries two_dest_tbl
  ∧ ip_vs_ch_update_svc (plat := sample_platform) two_dest_bound (two_dests [])
    = None
  ∧ ip_vs_ch_done_svc (plat := sample_platform) two_dest_bound (two_dests [])
    = None.
Proof.
  assert (H1 : dests_mapped (two_dests []) (destinations two_dest_bound))
    by (apply (bool_decide_unpack _); by vm_compute).
  assert (H2 : ¬ no_entries two_dest_tbl)
    by (apply no_entries_entries, two_dest_tbl_entries).
  destruct (hooks_need_table_without_entries (plat := sample_platform)
              two_dest_bound two_dest_tbl (two_dests []) eq_refl H1)
    as (Hu & Hd & _).
  split; [reflexivity|]. split; [exact H1|]. split; [exact H2|]. split.
  - destruct (ip_vs_ch_update_svc two_dest_bound (two_dests [])) as [x|];
      [|reflexivity].
    destruct H2. apply Hu. by exists x.
  - destruct (ip_vs_ch_done_svc two_dest_bound (two_dests [])) as [x|];
      [|reflexivity].
    destruct H2. apply Hd. by exists x.
Defined.

(** X5.  A rebuild that runs out of memory can be retried only when it
    failed at its first entry.  [ip_vs_ch_update_svc] on a built table
    without entries whose allocation number [j] (from 0) is the first to
    fail returns 0 and leaves the entries of the [j] destinations of
    positive weight before it.  If [j] is 0 the table is again without
    entries, and a second update with enough memory leaves the table of a
    clean rebuild; otherwise the second update has no result. *)
Theorem rebuild_recovers_from_failed_rebuild {plat : Platform} svc tbl k j m :
  sched_data svc = Some tbl →
  tbl_built tbl →
  no_entries tbl →
  dests_mapped k (destinations svc) →
  kmem k = replicate j true ++ false :: m →
  (j < length (weighted (dests k) (destinations svc)))%nat →
  Forall (λ b, b = true) m →
  ∃ tbl1 k1,
    ip_vs_ch_update_svc svc k = Some (0, set_sched_data svc (Some tbl1), k1)
    ∧ node_dests (node_head tbl1)
      = take j (weighted (dests k) (destinations svc))
    ∧ (j = 0%nat →
       ∃ k2,
         ip_vs_ch_update_svc (set_sched_data svc (Some tbl1)) k1
         = Some (0, set_sched_data svc
                      (Some (table_of (dests k) (destinations svc))), k2))
    ∧ ((0 < j)%nat →
       ip_vs_ch_update_svc (set_sched_data svc (Some tbl1)) k1 = None).
Proof.
  intros Hsd Hb Hne Hm Hk Hj Hrest.
  destruct (ip_vs_ch_update_svc_spec svc tbl k Hsd Hne Hm)
    as (tbl1 & k1 & Hrun & Hch & _ & _ & Hds & Hl & _).
  rewrite <- nodes_for_length in Hj.
  destruct (assign_loop_failure (destinations svc)
              {| count := 0; conhash := conhash tbl; node_head := [];
                 head_links := Linked |}
              k j m eq_refl Hm Hk Hj) as (tbl2 & k2 & Hrun2 & Hnh & Hk2).
  assert (tbl2 = tbl1 ∧ k2 = k1) as [-> ->].
  { unfold ip_vs_ch_update_svc in Hrun. rewrite Hsd in Hrun.
    cbn [mbind option_bind] in Hrun.
    rewrite ip_vs_ch_flush_no_entries in Hrun by done.
    cbn [mbind option_bind] in Hrun. unfold ip_vs_ch_assign in Hrun.
    cbn [count conhash] in Hrun. rewrite Hrun2 in Hrun.
    cbn [mbind option_bind] in Hrun. by injection Hrun as -> ->. }
  cbn [node_head app] in Hnh.
  exists tbl1, k1. split; [done|].
  split; [rewrite Hnh; apply node_dests_take_nodes_for|]. split.
  - intros ->. cbn [take] in Hnh. rewrite Hnh in Hch, Hds.
    cbn [fold_left] in Hch. unfold refs_taken in Hds. cbn in Hds.
    destruct (ip_vs_ch_update_svc_ok (set_sched_data svc (Some tbl1)) tbl1 k1)
      as (k3 & Hrun3 & _); try done.
    + unfold tbl_built. by rewrite Hnh, Hch, (tbl_built_no_entries tbl).
    + eapply dests_mapped_dom; [|exact Hm]. intros p. by rewrite Hds.
    + unfold kmem_ok. by rewrite Hk2.
    + exists k3. rewrite Hrun3. cbn [destinations set_sched_data].
      by rewrite Hds.
  - intros Hpos. apply (ip_vs_ch_update_svc_faults _ tbl1); [done|].
    apply no_entries_entries. rewrite Hnh.
    destruct j as [|j]; [lia|].
    destruct (nodes_for (dests k) (destinations svc)); [simpl in Hj; lia|done].
Qed.

Lemma rebuild_recovers_from_failed_rebuild_witness :
  sched_data one_dest_unbuilt = Some empty_tbl
  ∧ tbl_built (plat := sample_platform) empty_tbl
  ∧ no_entries empty_tbl
  ∧ dests_mapped (one_dest [false]) (destinations one_dest_unbuilt)
  ∧ ∃ tbl1 k1 k2,
      ip_vs_ch_update_svc (plat := sample_platform) one_dest_unbuilt
        (one_dest [false])
      = Some (0, set_sched_data one_dest_unbuilt (Some tbl1), k1)
      ∧ node_dests (node_head tbl1) = []
      ∧ ip_vs_ch_update_svc (plat := sample_platform)
          (set_sched_data one_dest_unbuilt (Some tbl1)) k1
        = Some (0, one_dest_bound, k2).
Proof.
  assert (H1 : tbl_built (plat := sample_platform) empty_tbl) by reflexivity.
  assert (H2 : dests_mapped (one_dest [false]) (destinations one_dest_unbuilt))
    by (apply (bool_decide_unpack _); by vm_compute).
  assert (H3 : (0 < length (weighted (dests (one_dest [false]))
                              (destinations one_dest_unbuilt)))%nat)
    by (vm_compute; lia).
  destruct (rebuild_recovers_from_failed_rebuild (plat := sample_platform)
              one_dest_unbuilt empty_tbl (one_dest [false]) 0 []
              eq_refl H1 empty_tbl_no_entries H2 eq_refl H3 (Forall_nil_2 _))
    as (tbl1 & k1 & Hrun & Hnd & Hretry & _).
  destruct (Hretry eq_refl) as (k2 & Hrun2).
  split; [reflexivity|]. split; [exact H1|].
  split; [exact empty_tbl_no_entries|]. split; [exact H2|].
  exists tbl1, k1, k2. split; [exact Hrun|]. split; [exact Hnd|exact Hrun2].
Defined.
